(** * The particle ring of the portfolio scene (src/index.js)

    The scene script builds a ring of particles around the central cube
    (section 8 of the script, "Particle Ring System") and moves every
    particle along its orbit once per animation frame (section 10,
    [animate]).  This development embeds those two pieces and proves the
    properties the specification states about them.

    Numbers.  JavaScript numbers are IEEE doubles and the two buffers are
    [Float32Array]s.  The embedding works in idealised arithmetic: a number
    is a real ([R]), a store into a typed array keeps the value as it is,
    and [Math.sqrt], [Math.log], [Math.cos], [Math.sin], [Math.max],
    [Math.min] are the Standard Library's [sqrt], [ln], [cos], [sin],
    [Rmax], [Rmin].  The real functions agree with the JavaScript ones on
    the arguments the script can pass when [Math.random] keeps its
    contract (values in [0,1)), which the theorems assume where it matters
    ([unit_tape]); division agrees for non-zero divisors only, which is
    why every statement about [speed] comes with a non-zero radius.

    Randomness.  [Math.random()] reads the next entry of a tape of reals
    that is threaded through the construction.  A tape is a finite prefix
    of the random stream; running out of it ([OutOfTape]) stands for "the
    script needs more random numbers than this prefix has", not for a
    failure of the script.

    The script's two variants (separated in src/index.js by a marker line)
    share the ring code and differ in constants only; the constants are
    the fields of [Config], and [variant1] and [variant2] give the values
    the two variants hard-code. *)

From Stdlib Require Import Reals Lra Lia ZArith.
From stdpp Require Import base list.

#[local] Open Scope R_scope.

(** ** Data *)

(** [THREE.Color]: the three channels the script reads back
    ([tempColor.r], [tempColor.g], [tempColor.b]). *)
Module Color.
Record t : Type := mk { r : R; g : R; b : R }.
End Color.

(** Modelled from the spec: [THREE.Color.lerpColors] is library code, not
    part of src/; the specification fixes it as the per-channel linear
    blend of the two reference colours ("any linear RGB lerp reproduces
    it"), which is [c1 + (c2 - c1) * alpha] on each channel. *)
Definition lerpColors (c1 c2 : Color.t) (alpha : R) : Color.t :=
  Color.mk (Color.r c1 + (Color.r c2 - Color.r c1) * alpha)
           (Color.g c1 + (Color.g c2 - Color.g c1) * alpha)
           (Color.b c1 + (Color.b c2 - Color.b c1) * alpha).

(** An element of [particlesData]: the object [{ radius, angle, speed }]. *)
Record Particle : Type := mkParticle { radius : R; angle : R; speed : R }.

(** The constants of section 8 of the script.  [speedConstant] is the
    literal of [const speed = 0.4 / radius] (0.1 in the first variant). *)
Record Config : Type := mkConfig {
  particleCount : Z;
  innerRadius : R;
  outerRadius : R;
  speedConstant : R;
  color1 : Color.t;
  color2 : Color.t;
  color3 : Color.t
}.

(** What the script hands to the rendering engine during a frame, in the
    order it does so. *)
Inductive Signal : Type :=
  | RequestAnimationFrame   (* requestAnimationFrame(animate) *)
  | PositionNeedsUpdate     (* ...attributes.position.needsUpdate = true *)
  | RenderScene.            (* renderer.render(scene, camera) *)

(** The module-level state of the ring: the array [particlesData] and the
    two typed arrays.  [animate] reaches [positions] through
    [particleRing.geometry.attributes.position.array], which is the very
    array built at construction, so there is one [positions] field.
    [signals] records the calls into the engine, oldest first. *)
Record Ring : Type := mkRing {
  particlesData : list Particle;
  positions : list R;
  colors : list R;
  signals : list Signal
}.

(** Ways a run can stop early.  [RangeError]: [new Float32Array(n)] with a
    negative length.  [TypeError]: a property read on [undefined]
    ([particlesData[i]] past the end of the array).  [OutOfTape]: see the
    header. *)
Inductive Exn : Type := RangeError | TypeError | OutOfTape.

(** ** The random source and the monad that threads it *)

Definition Rand (A : Type) : Type := list R -> Exn + A * list R.

Definition ret {A : Type} (a : A) : Rand A := fun tape => inr (a, tape).

Definition bind {A B : Type} (m : Rand A) (f : A -> Rand B) : Rand B :=
  fun tape =>
    match m tape with
    | inl e => inl e
    | inr (a, tape') => f a tape'
    end.

Declare Scope rand_scope.
Delimit Scope rand_scope with rand.
Notation "x <- m ;; k" := (bind m (fun x => k))
  (at level 100, m at next level, right associativity) : rand_scope.

(** [Math.random()]. *)
Definition random : Rand R :=
  fun tape =>
    match tape with
    | [] => inl OutOfTape
    | u :: rest => inr (u, rest)
    end.

(** [let u = 0; while (u === 0) u = Math.random();] the value of [u] after
    the loop.  The loop body runs at least once (u starts at 0) and again
    after every draw of exactly 0. *)
Fixpoint randomNonZero (tape : list R) : Exn + R * list R :=
  match tape with
  | [] => inl OutOfTape
  | u :: rest => if Req_dec_T u 0 then randomNonZero rest else inr (u, rest)
  end.

(** ** Section 8 of the script: construction *)

(** [getNormalRandom(mean, stdDev)]: the u1 loop runs to its end before the
    u2 loop starts. *)
Definition getNormalRandom (mean stdDev : R) : Rand R :=
  (u1 <- randomNonZero ;;
   u2 <- randomNonZero ;;
   let z := sqrt (-2 * ln u1) * cos (2 * PI * u2) in
   ret (z * stdDev + mean))%rand.

Definition meanRadius (cfg : Config) : R :=
  (innerRadius cfg + outerRadius cfg) / 2.

Definition stdDevRadius (cfg : Config) : R :=
  (outerRadius cfg - innerRadius cfg) / 4.

(** [new Float32Array(len)] for an integer [len]: zero-filled, and a
    [RangeError] for a negative length. *)
Definition Float32Array (len : Z) : Exn + list R :=
  if (len <? 0)%Z then inl RangeError else inr (replicate (Z.to_nat len) 0).

(** [Math.max(innerRadius, Math.min(outerRadius, radius))]. *)
Definition clampRadius (cfg : Config) (x : R) : R :=
  Rmax (innerRadius cfg) (Rmin (outerRadius cfg) x).

Definition normalizedRadius (cfg : Config) (radius : R) : R :=
  (radius - innerRadius cfg) / (outerRadius cfg - innerRadius cfg).

(** The value of [tempColor] after the [if]/[else] of the loop body.  The
    script keeps one [tempColor] object for all iterations; [lerpColors]
    overwrites its three channels before they are read, so nothing of an
    earlier iteration is left in it. *)
Definition tempColor (cfg : Config) (radius : R) : Color.t :=
  let t := normalizedRadius cfg radius in
  if Rlt_dec t 0.5
  then lerpColors (color1 cfg) (color2 cfg) (t * 2)
  else lerpColors (color2 cfg) (color3 cfg) ((t - 0.5) * 2).

(** The particle of one iteration, from the normal draw and the uniform
    draw of the angle. *)
Definition newParticle (cfg : Config) (normal u : R) : Particle :=
  let radius := clampRadius cfg normal in
  let angle := u * PI * 2 in
  let speed := speedConstant cfg / radius in
  mkParticle radius angle speed.

(** The stores of one iteration.  A store into a typed array at an index
    past its end is ignored, which is what the list update does. *)
Definition storeParticle (cfg : Config) (i : nat) (p : Particle) (st : Ring) : Ring :=
  let c := tempColor cfg (radius p) in
  mkRing
    (particlesData st ++ [p])
    (<[(i * 3 + 2)%nat := 0]>
       (<[(i * 3 + 1)%nat := sin (angle p) * radius p]>
          (<[(i * 3)%nat := cos (angle p) * radius p]> (positions st))))
    (<[(i * 3 + 2)%nat := Color.b c]>
       (<[(i * 3 + 1)%nat := Color.g c]>
          (<[(i * 3)%nat := Color.r c]> (colors st))))
    (signals st).

(** The body of [for (let i = 0; i < particleCount; i++)]. *)
Definition constructStep (cfg : Config) (i : nat) (st : Ring) : Rand Ring :=
  (normal <- getNormalRandom (meanRadius cfg) (stdDevRadius cfg) ;;
   u <- random ;;
   ret (storeParticle cfg i (newParticle cfg normal u) st))%rand.

(** [k] iterations of the loop, the first one at index [i]. *)
Fixpoint constructLoop (cfg : Config) (k i : nat) (st : Ring) : Rand Ring :=
  match k with
  | O => ret st
  | S k' => (st' <- constructStep cfg i st ;; constructLoop cfg k' (S i) st')%rand
  end.

(** Section 8 as a whole: allocate the two buffers, then run the loop
    [particleCount] times (not at all when [particleCount <= 0]). *)
Definition particleRingInit (cfg : Config) : Rand Ring :=
  fun tape =>
    match Float32Array (particleCount cfg * 3) with
    | inl e => inl e
    | inr positions0 =>
        match Float32Array (particleCount cfg * 3) with
        | inl e => inl e
        | inr colors0 =>
            constructLoop cfg (Z.to_nat (particleCount cfg)) 0
              (mkRing [] positions0 colors0 []) tape
        end
    end.

(** The constants of the two variants of the script; the reference
    colours are [THREE.Color] values built by the engine from CSS names. *)
Definition variant1 (white yellow orange : Color.t) : Config :=
  mkConfig 20000 2 5 0.1 white yellow orange.

Definition variant2 (white yellow orange : Color.t) : Config :=
  mkConfig 20000 3 5 0.4 white yellow orange.

(** ** Section 10 of the script: the per-frame update *)

(** [data.angle += data.speed]. *)
Definition advance (data : Particle) : Particle :=
  mkParticle (radius data) (angle data + speed data) (speed data).

(** The body of the loop of [animate] at index [i]; [particlesData[i]]
    past the end of the array is [undefined], and reading [.angle] of it
    throws. *)
Definition animateStep (i : nat) (st : Ring) : Exn + Ring :=
  match particlesData st !! i with
  | None => inl TypeError
  | Some data =>
      let data' := advance data in
      let index := (i * 3)%nat in
      inr (mkRing
             (<[i := data']> (particlesData st))
             (<[(index + 1)%nat := sin (angle data') * radius data']>
                (<[index := cos (angle data') * radius data']> (positions st)))
             (colors st)
             (signals st))
  end.

Fixpoint animateLoop (k i : nat) (st : Ring) : Exn + Ring :=
  match k with
  | O => inr st
  | S k' =>
      match animateStep i st with
      | inl e => inl e
      | inr st' => animateLoop k' (S i) st'
      end
  end.

Definition signal (s : Signal) (st : Ring) : Ring :=
  mkRing (particlesData st) (positions st) (colors st) (signals st ++ [s]).

(** [animate()], restricted to the ring: the cube, the starfield and the
    orbit controls it also touches share no state with the ring. *)
Definition animate (cfg : Config) (st : Ring) : Exn + Ring :=
  match animateLoop (Z.to_nat (particleCount cfg)) 0
          (signal RequestAnimationFrame st) with
  | inl e => inl e
  | inr st' => inr (signal RenderScene (signal PositionNeedsUpdate st'))
  end.

(** [n] frames. *)
Fixpoint ticks (cfg : Config) (n : nat) (st : Ring) : Exn + Ring :=
  match n with
  | O => inr st
  | S n' =>
      match animate cfg st with
      | inl e => inl e
      | inr st' => ticks cfg n' st'
      end
  end.

(** ** The specification's reading of the sampler, for comparison *)

(** The Box-Muller variate of the specification: [z = sqrt(-2 ln u1) *
    cos(2 pi u2)], scaled by [(outer - inner) / 4] and shifted by
    [(inner + outer) / 2]. *)
Definition boxMullerRadius (inner outer u1 u2 : R) : R :=
  sqrt (-2 * ln u1) * cos (2 * PI * u2) * ((outer - inner) / 4)
  + (inner + outer) / 2.

(** The two-stop gradient of the specification, on the normalised
    coordinate [t]. *)
Definition gradient (inner mid outer : Color.t) (t : R) : Color.t :=
  if Rlt_dec t 0.5
  then lerpColors inner mid (2 * t)
  else lerpColors mid outer (2 * (t - 0.5)).

(** ** Predicates used in the statements *)

(** [Math.random] returns values in [0,1). *)
Definition unit_tape (tape : list R) : Prop :=
  Forall (fun u => 0 <= u < 1) tape.

(** The number of non-zero entries of a tape: a run that draws [n]
    particles consumes at most [3 * n] of them. *)
Fixpoint nonzeros (tape : list R) : nat :=
  match tape with
  | [] => O
  | u :: rest => if Req_dec_T u 0 then nonzeros rest else S (nonzeros rest)
  end.

(** The inputs the specification calls valid. *)
Definition valid_band (cfg : Config) : Prop :=
  0 < innerRadius cfg < outerRadius cfg.

(** The shape of the ring state that construction establishes and that
    [animate] relies on: one particle and three buffer slots per index. *)
Definition ring_shape (cfg : Config) (st : Ring) : Prop :=
  length (particlesData st) = Z.to_nat (particleCount cfg)
  /\ length (positions st) = (Z.to_nat (particleCount cfg) * 3)%nat
  /\ length (colors st) = (Z.to_nat (particleCount cfg) * 3)%nat.

(** A particle the loop body can build from draws that keep the contract
    of [Math.random]: [u1] and [u2] feed the normal variate, [u] the
    angle. *)
Definition sampled (cfg : Config) (p : Particle) : Prop :=
  exists u1 u2 u,
    0 < u1 < 1 /\ 0 < u2 < 1 /\ 0 <= u < 1
    /\ p = newParticle cfg
             (boxMullerRadius (innerRadius cfg) (outerRadius cfg) u1 u2) u.

(** Slots [3j], [3j+1], [3j+2] of the position buffer hold particle [j]
    at the angle it has. *)
Definition position_of (st : Ring) (j : nat) (p : Particle) : Prop :=
  positions st !! (j * 3)%nat = Some (cos (angle p) * radius p)
  /\ positions st !! (j * 3 + 1)%nat = Some (sin (angle p) * radius p)
  /\ positions st !! (j * 3 + 2)%nat = Some 0.

(** Slots [3j], [3j+1], [3j+2] of the colour buffer hold the channels of
    the colour computed from the radius of particle [j]. *)
Definition color_of (cfg : Config) (st : Ring) (j : nat) (p : Particle) : Prop :=
  colors st !! (j * 3)%nat = Some (Color.r (tempColor cfg (radius p)))
  /\ colors st !! (j * 3 + 1)%nat = Some (Color.g (tempColor cfg (radius p)))
  /\ colors st !! (j * 3 + 2)%nat = Some (Color.b (tempColor cfg (radius p))).

(** [data.angle += data.speed], [n] times over. *)
Definition advanceBy (n : nat) (p : Particle) : Particle :=
  mkParticle (radius p) (angle p + INR n * speed p) (speed p).

(** ** A worked run

    Two particles in the band [3,5] with speed constant 0.4.  The tape
    starts with a zero that the first rejection loop throws away; the first
    particle is drawn four standard deviations under the mean and is
    clamped to the inner radius, the second four over and is clamped to the
    outer radius. *)

Definition white : Color.t := Color.mk 1 1 1.
Definition yellow : Color.t := Color.mk 1 1 0.
Definition orange : Color.t := Color.mk 1 (165 / 255) 0.

Definition exampleConfig : Config := mkConfig 2 3 5 0.4 white yellow orange.

Definition exampleTape : list R :=
  [0; exp (-8); 1 / 2; 0; exp (-32); 1 / 6; 1 / 2].

Definition exampleRing : Ring :=
  storeParticle exampleConfig 1
    (newParticle exampleConfig (boxMullerRadius 3 5 (exp (-32)) (1 / 6)) (1 / 2))
    (storeParticle exampleConfig 0
       (newParticle exampleConfig (boxMullerRadius 3 5 (exp (-8)) (1 / 2)) 0)
       (mkRing [] (replicate 6 0) (replicate 6 0) [])).

(** A band that is a single point at the origin, and no particles at all:
    two of the inputs the specification calls degenerate. *)
Definition pointConfig : Config := mkConfig 1 0 0 0.4 white yellow orange.

Definition emptyConfig : Config := mkConfig 0 3 5 0.4 white yellow orange.

(** ** Section 7 of the script: the starfield *)

(** The body of [for (let i = 0; i < 10000; i++)]: three draws, three
    coordinates pushed onto [starVertices]. *)
Definition starStep (starVertices : list R) : Rand (list R) :=
  (u <- random ;;
   v <- random ;;
   w <- random ;;
   let x := (u - 0.5) * 2000 in
   let y := (v - 0.5) * 2000 in
   let z := (w - 0.5) * 2000 in
   ret (starVertices ++ [x; y; z]))%rand.

Fixpoint starLoop (k : nat) (starVertices : list R) : Rand (list R) :=
  match k with
  | O => ret starVertices
  | S k' => (vs <- starStep starVertices ;; starLoop k' vs)%rand
  end.

(** [starVertices] after the loop. *)
Definition starfieldInit : Rand (list R) := starLoop (Z.to_nat 10000) [].


(** ** Section 10 of the script: the rest of [animate] *)

(** What [animate] changes besides the ring: two Euler angles of the cube
    and one of the starfield (radians). *)
Record Scene : Type := mkScene {
  cubeRotationX : R;
  cubeRotationY : R;
  starfieldRotationY : R;
  particleRing : Ring
}.

(** [animate()] on the whole scene.  [starfieldStep] is the literal of
    [starfield.rotation.y += 0.0001] (0.0003 in the first variant).  The
    cube is turned before the particle loop and the starfield after it; a
    frame that throws in the loop is given as the exception alone. *)
Definition animateScene (cfg : Config) (starfieldStep : R) (sc : Scene) : Exn + Scene :=
  match animate cfg (particleRing sc) with
  | inl e => inl e
  | inr ring' =>
      inr (mkScene (cubeRotationX sc + 0.005)
                   (cubeRotationY sc + 0.005)
                   (starfieldRotationY sc + starfieldStep)
                   ring')
  end.

Fixpoint sceneTicks (cfg : Config) (starfieldStep : R) (n : nat) (sc : Scene)
  : Exn + Scene :=
  match n with
  | O => inr sc
  | S n' =>
      match animateScene cfg starfieldStep sc with
      | inl e => inl e
      | inr sc' => sceneTicks cfg starfieldStep n' sc'
      end
  end.

(** ** Further predicates *)

(** Both buffers agree with the particle array, index by index. *)
Definition synced (cfg : Config) (st : Ring) : Prop :=
  ring_shape cfg st
  /\ forall j p, particlesData st !! j = Some p ->
       position_of st j p /\ color_of cfg st j p.

(** The three channels of a colour lie between [lo] and [hi]. *)
Definition channels_within (lo hi : R) (c : Color.t) : Prop :=
  lo <= Color.r c <= hi /\ lo <= Color.g c <= hi /\ lo <= Color.b c <= hi.

(** Signals can be compared, so that a trace can be searched. *)
#[global] Instance Signal_eq_dec : EqDecision Signal.
Proof. solve_decision. Defined.

(** No channel differs by more than [M] between two colours. *)
Definition channels_apart (M : R) (c d : Color.t) : Prop :=
  Rabs (Color.r d - Color.r c) <= M
  /\ Rabs (Color.g d - Color.g c) <= M
  /\ Rabs (Color.b d - Color.b c) <= M.

(** The signals of one frame. *)
Definition frameSignals : list Signal :=
  [RequestAnimationFrame; PositionNeedsUpdate; RenderScene].

(** A ring state that lost its particles, for the error path of [animate]. *)
Definition strippedRing : Ring := mkRing [] (replicate 6 0) (replicate 6 0) [].

(** * Lemmas *)

(** ** The random source *)

Section Tape.

Lemma unit_tape_cons u tape :
  unit_tape (u :: tape) <-> 0 <= u < 1 /\ unit_tape tape.
Proof. unfold unit_tape. exact (Forall_cons _ u tape). Qed.

Lemma unit_tape_app t1 t2 :
  unit_tape (t1 ++ t2) <-> unit_tape t1 /\ unit_tape t2.
Proof. unfold unit_tape. exact (Forall_app _ t1 t2). Qed.

Lemma random_inv tape u rest :
  random tape = inr (u, rest) -> tape = u :: rest.
Proof. destruct tape; simpl; congruence. Qed.

(** The rejection loop skips a run of zeros and stops at the first
    non-zero entry. *)
Lemma randomNonZero_inv tape u rest :
  randomNonZero tape = inr (u, rest) ->
  exists zs, tape = zs ++ u :: rest /\ Forall (fun z => z = 0) zs /\ u <> 0.
Proof.
  induction tape as [|v tape IH]; simpl; [discriminate|].
  destruct (Req_dec_T v 0) as [Hz|Hnz]; intros H.
  - destruct (IH H) as (zs & -> & Hzs & Hu).
    exists (v :: zs). split_and!; [reflexivity | by constructor | assumption].
  - inversion H; subst. exists []. split_and!; [reflexivity | constructor | assumption].
Qed.

Lemma nonzeros_app_zeros zs tape :
  Forall (fun z => z = 0) zs -> nonzeros (zs ++ tape) = nonzeros tape.
Proof.
  induction 1 as [|z zs Hz _ IH]; simpl; [reflexivity|].
  destruct (Req_dec_T z 0); [assumption | contradiction].
Qed.

(** One non-zero entry left is enough for the loop to end, and the loop
    uses up exactly one non-zero entry. *)
Lemma randomNonZero_total tape :
  (0 < nonzeros tape)%nat ->
  exists u rest, randomNonZero tape = inr (u, rest)
                 /\ nonzeros tape = S (nonzeros rest).
Proof.
  induction tape as [|v tape IH]; simpl; [lia|].
  destruct (Req_dec_T v 0); intros H; [auto | eauto].
Qed.

Lemma randomNonZero_exn tape e :
  randomNonZero tape = inl e -> e = OutOfTape.
Proof.
  induction tape as [|v tape IH]; simpl; [congruence|].
  destruct (Req_dec_T v 0); [assumption | discriminate].
Qed.

Lemma nonzeros_le_length tape : (nonzeros tape <= length tape)%nat.
Proof.
  induction tape as [|v tape IH]; simpl; [lia|].
  destruct (Req_dec_T v 0); lia.
Qed.

End Tape.

(** ** [getNormalRandom] *)

Section Normal.

Variables mean stdDev : R.

Lemma getNormalRandom_inv tape x rest :
  getNormalRandom mean stdDev tape = inr (x, rest) ->
  exists zs1 u1 zs2 u2,
    tape = zs1 ++ u1 :: zs2 ++ u2 :: rest
    /\ Forall (fun z => z = 0) zs1 /\ Forall (fun z => z = 0) zs2
    /\ u1 <> 0 /\ u2 <> 0
    /\ x = sqrt (-2 * ln u1) * cos (2 * PI * u2) * stdDev + mean.
Proof.
  unfold getNormalRandom, bind, ret.
  destruct (randomNonZero tape) as [e|[u1 t1]] eqn:H1; [discriminate|].
  destruct (randomNonZero t1) as [e|[u2 t2]] eqn:H2; [discriminate|].
  intros H; inversion H; subst; clear H.
  apply randomNonZero_inv in H1 as (zs1 & -> & Hz1 & Hu1).
  apply randomNonZero_inv in H2 as (zs2 & -> & Hz2 & Hu2).
  exists zs1, u1, zs2, u2. split_and!; auto.
Qed.

Lemma getNormalRandom_total tape :
  (2 <= nonzeros tape)%nat ->
  exists x rest, getNormalRandom mean stdDev tape = inr (x, rest)
                 /\ nonzeros tape = S (S (nonzeros rest)).
Proof.
  intros H. unfold getNormalRandom, bind, ret.
  destruct (randomNonZero_total tape) as (u1 & t1 & -> & E1); [lia|].
  destruct (randomNonZero_total t1) as (u2 & t2 & -> & E2); [lia|].
  eexists _, _. split; [reflexivity | lia].
Qed.

Lemma getNormalRandom_exn tape e :
  getNormalRandom mean stdDev tape = inl e -> e = OutOfTape.
Proof.
  unfold getNormalRandom, bind, ret.
  destruct (randomNonZero tape) as [e1|[u1 t1]] eqn:H1.
  - intros H; inversion H; subst. eapply randomNonZero_exn; eassumption.
  - destruct (randomNonZero t1) as [e2|[u2 t2]] eqn:H2; [|discriminate].
    intros H; inversion H; subst. eapply randomNonZero_exn; eassumption.
Qed.

End Normal.

(** ** Construction: one iteration *)

#[local] Ltac insert_lookup :=
  repeat first
    [ rewrite list_lookup_insert_eq by (rewrite ?length_insert; lia)
    | rewrite list_lookup_insert_ne by lia ].

Section Store.

Variable cfg : Config.

Lemma storeParticle_position_of i p st :
  (i * 3 + 2 < length (positions st))%nat ->
  position_of (storeParticle cfg i p st) i p.
Proof.
  intros Hlen. unfold position_of, storeParticle; simpl.
  split_and!; insert_lookup; reflexivity.
Qed.

Lemma storeParticle_color_of i p st :
  (i * 3 + 2 < length (colors st))%nat ->
  color_of cfg (storeParticle cfg i p st) i p.
Proof.
  intros Hlen. unfold color_of, storeParticle; simpl.
  split_and!; insert_lookup; reflexivity.
Qed.

Lemma storeParticle_below i p st idx :
  (idx < i * 3)%nat ->
  positions (storeParticle cfg i p st) !! idx = positions st !! idx
  /\ colors (storeParticle cfg i p st) !! idx = colors st !! idx.
Proof.
  intros Hidx. unfold storeParticle; simpl. split; insert_lookup; reflexivity.
Qed.

Lemma storeParticle_lengths i p st :
  length (particlesData (storeParticle cfg i p st)) = S (length (particlesData st))
  /\ length (positions (storeParticle cfg i p st)) = length (positions st)
  /\ length (colors (storeParticle cfg i p st)) = length (colors st).
Proof.
  unfold storeParticle; simpl.
  rewrite length_app, !length_insert; simpl. lia.
Qed.

Lemma constructStep_inv i st tape st' rest :
  constructStep cfg i st tape = inr (st', rest) ->
  exists zs1 u1 zs2 u2 u,
    tape = zs1 ++ u1 :: zs2 ++ u2 :: u :: rest
    /\ Forall (fun z => z = 0) zs1 /\ Forall (fun z => z = 0) zs2
    /\ u1 <> 0 /\ u2 <> 0
    /\ st' = storeParticle cfg i
               (newParticle cfg
                  (boxMullerRadius (innerRadius cfg) (outerRadius cfg) u1 u2) u)
               st.
Proof.
  unfold constructStep, bind, ret.
  destruct (getNormalRandom _ _ tape) as [e|[x t1]] eqn:Hn; [discriminate|].
  destruct (random t1) as [e|[u t2]] eqn:Hr; [discriminate|].
  intros H; inversion H; subst; clear H.
  apply getNormalRandom_inv in Hn as (zs1 & u1 & zs2 & u2 & -> & Hz1 & Hz2 & Hu1 & Hu2 & ->).
  apply random_inv in Hr as ->.
  exists zs1, u1, zs2, u2, u. split_and!; auto.
Qed.

(** On a tape that keeps the contract of [Math.random] the iteration
    builds a [sampled] particle and leaves such a tape. *)
Lemma constructStep_sampled i st tape st' rest :
  unit_tape tape ->
  constructStep cfg i st tape = inr (st', rest) ->
  unit_tape rest
  /\ exists p, sampled cfg p /\ st' = storeParticle cfg i p st.
Proof.
  intros Hu H.
  apply constructStep_inv in H
    as (zs1 & u1 & zs2 & u2 & u & -> & _ & _ & Hu1 & Hu2 & ->).
  apply unit_tape_app in Hu as [_ Hu].
  apply unit_tape_cons in Hu as [B1 Hu].
  apply unit_tape_app in Hu as [_ Hu].
  apply unit_tape_cons in Hu as [B2 Hu].
  apply unit_tape_cons in Hu as [B3 Hu].
  split; [assumption|].
  eexists. split; [|reflexivity].
  exists u1, u2, u. split_and!; try reflexivity; lra.
Qed.

Lemma constructStep_total i st tape :
  (3 <= nonzeros tape)%nat ->
  exists st' rest, constructStep cfg i st tape = inr (st', rest)
                   /\ (nonzeros tape <= 3 + nonzeros rest)%nat.
Proof.
  intros H. unfold constructStep, bind, ret.
  destruct (getNormalRandom_total (meanRadius cfg) (stdDevRadius cfg) tape)
    as (x & t1 & -> & E); [lia|].
  destruct t1 as [|u t2]; [simpl in E; lia|].
  simpl. eexists _, _. split; [reflexivity|].
  simpl in E. destruct (Req_dec_T u 0); lia.
Qed.

Lemma constructStep_exn i st tape e :
  constructStep cfg i st tape = inl e -> e = OutOfTape.
Proof.
  unfold constructStep, bind, ret.
  destruct (getNormalRandom _ _ tape) as [e1|[x t1]] eqn:Hn.
  - intros H; inversion H; subst. eapply getNormalRandom_exn; eassumption.
  - destruct t1; simpl; congruence.
Qed.

End Store.

(** ** Construction: the loop and the whole of section 8 *)

Section Construction.

Variable cfg : Config.

(** What [k] iterations starting at index [i] do to a state that holds
    [i] particles: they append [k] sampled particles, fill the slots of
    the indices they visit and leave the slots below alone. *)
Lemma constructLoop_inv k : forall i st tape st' rest,
  unit_tape tape ->
  length (particlesData st) = i ->
  constructLoop cfg k i st tape = inr (st', rest) ->
  unit_tape rest
  /\ (exists ps, particlesData st' = particlesData st ++ ps
                 /\ length ps = k /\ Forall (sampled cfg) ps)
  /\ length (positions st') = length (positions st)
  /\ length (colors st') = length (colors st)
  /\ signals st' = signals st
  /\ (forall idx, (idx < i * 3)%nat ->
        positions st' !! idx = positions st !! idx
        /\ colors st' !! idx = colors st !! idx)
  /\ (forall j p, (i <= j)%nat -> particlesData st' !! j = Some p ->
        ((j * 3 + 2 < length (positions st))%nat -> position_of st' j p)
        /\ ((j * 3 + 2 < length (colors st))%nat -> color_of cfg st' j p)).
Proof.
  induction k as [|k IH]; intros i st tape st' rest Hu Hi H.
  - simpl in H. unfold ret in H. inversion H; subst; clear H.
    split_and!; auto.
    + exists []. rewrite app_nil_r. split_and!; [reflexivity..|constructor].
    + intros j p Hj Hp. apply lookup_lt_Some in Hp. lia.
  - simpl in H. unfold bind in H.
    destruct (constructStep cfg i st tape) as [e|[st1 t1]] eqn:Hs; [discriminate|].
    destruct (constructStep_sampled cfg _ _ _ _ _ Hu Hs) as (Hu1 & p0 & Hp0 & ->).
    destruct (storeParticle_lengths cfg i p0 st) as (L1 & L2 & L3).
    assert (Hi1 : length (particlesData (storeParticle cfg i p0 st)) = S i) by lia.
    destruct (IH (S i) _ t1 st' rest Hu1 Hi1 H)
      as (Hur & (ps & Eps & Lps & Fps) & Lp & Lc & Sg & Below & At).
    assert (Epd : particlesData st' = particlesData st ++ p0 :: ps).
    { rewrite Eps. unfold storeParticle; simpl. by rewrite <- app_assoc. }
    split_and!; auto.
    + exists (p0 :: ps). split_and!; [assumption | simpl; lia | by constructor].
    + lia.
    + lia.
    + intros idx Hidx. destruct (Below idx ltac:(lia)) as [-> ->].
      by apply storeParticle_below.
    + intros j p Hj Hp.
      destruct (decide (j = i)) as [->|Hne].
      * assert (p = p0) as ->.
        { rewrite Epd in Hp. rewrite lookup_app_r in Hp by lia.
          replace (i - length (particlesData st))%nat with 0%nat in Hp by lia.
          simpl in Hp. congruence. }
        split; intros Hlen.
        -- destruct (storeParticle_position_of cfg i p0 st Hlen) as (P0 & P1 & P2).
           unfold position_of.
           destruct (Below (i * 3)%nat ltac:(lia)) as [-> _].
           destruct (Below (i * 3 + 1)%nat ltac:(lia)) as [-> _].
           destruct (Below (i * 3 + 2)%nat ltac:(lia)) as [-> _].
           auto.
        -- destruct (storeParticle_color_of cfg i p0 st Hlen) as (P0 & P1 & P2).
           unfold color_of.
           destruct (Below (i * 3)%nat ltac:(lia)) as [_ ->].
           destruct (Below (i * 3 + 1)%nat ltac:(lia)) as [_ ->].
           destruct (Below (i * 3 + 2)%nat ltac:(lia)) as [_ ->].
           auto.
      * destruct (At j p ltac:(lia) Hp) as [A1 A2].
        split; intros Hlen; [apply A1 | apply A2]; lia.
Qed.

(** The loop stops early only for want of random numbers, and three
    non-zero entries per particle are enough. *)
Lemma constructLoop_total k : forall i st tape,
  (3 * k <= nonzeros tape)%nat ->
  exists st' rest, constructLoop cfg k i st tape = inr (st', rest).
Proof.
  induction k as [|k IH]; intros i st tape H; simpl.
  - eexists _, _. reflexivity.
  - unfold bind.
    destruct (constructStep_total cfg i st tape) as (st1 & t1 & -> & E); [lia|].
    apply IH. lia.
Qed.

Lemma constructLoop_exn k : forall i st tape e,
  constructLoop cfg k i st tape = inl e -> e = OutOfTape.
Proof.
  induction k as [|k IH]; intros i st tape e; simpl; [discriminate|].
  unfold bind.
  destruct (constructStep cfg i st tape) as [e1|[st1 t1]] eqn:Hs.
  - intros H; inversion H; subst. eapply constructStep_exn; eassumption.
  - apply IH.
Qed.

Lemma Float32Array_ok len :
  (0 <= len)%Z -> Float32Array len = inr (replicate (Z.to_nat len) 0).
Proof.
  intros H. unfold Float32Array.
  destruct (Z.ltb_spec len 0); [lia | reflexivity].
Qed.

Lemma Float32Array_negative len :
  (len < 0)%Z -> Float32Array len = inl RangeError.
Proof.
  intros H. unfold Float32Array.
  destruct (Z.ltb_spec len 0); [reflexivity | lia].
Qed.

Lemma particleRingInit_unfold tape :
  (0 <= particleCount cfg)%Z ->
  particleRingInit cfg tape
  = constructLoop cfg (Z.to_nat (particleCount cfg)) 0
      (mkRing [] (replicate (Z.to_nat (particleCount cfg) * 3) 0)
                 (replicate (Z.to_nat (particleCount cfg) * 3) 0) [])
      tape.
Proof.
  intros H. unfold particleRingInit.
  rewrite Float32Array_ok by lia.
  replace (Z.to_nat (particleCount cfg * 3)) with (Z.to_nat (particleCount cfg) * 3)%nat
    by lia.
  reflexivity.
Qed.

(** A negative [particleCount] stops the script at the first buffer
    allocation. *)
Lemma particleRingInit_negative tape :
  (particleCount cfg < 0)%Z -> particleRingInit cfg tape = inl RangeError.
Proof.
  intros H. unfold particleRingInit.
  by rewrite Float32Array_negative by lia.
Qed.

(** Nothing else stops it, whatever the radii are, as long as the random
    source keeps delivering. *)
Lemma particleRingInit_total tape :
  (0 <= particleCount cfg)%Z ->
  (3 * Z.to_nat (particleCount cfg) <= nonzeros tape)%nat ->
  exists st rest, particleRingInit cfg tape = inr (st, rest).
Proof.
  intros H Ht. rewrite particleRingInit_unfold by assumption.
  by apply constructLoop_total.
Qed.

(** The state section 8 leaves behind. *)
Lemma particleRingInit_inv tape st rest :
  unit_tape tape ->
  particleRingInit cfg tape = inr (st, rest) ->
  (0 <= particleCount cfg)%Z
  /\ ring_shape cfg st
  /\ Forall (sampled cfg) (particlesData st)
  /\ signals st = []
  /\ (forall j p, particlesData st !! j = Some p ->
        position_of st j p /\ color_of cfg st j p).
Proof.
  intros Hu H.
  destruct (Z.lt_ge_cases (particleCount cfg) 0) as [Hneg|Hpos].
  { rewrite particleRingInit_negative in H by assumption. discriminate. }
  rewrite particleRingInit_unfold in H by assumption.
  apply constructLoop_inv in H as (_ & (ps & Eps & Lps & Fps) & Lp & Lc & Sg & _ & At);
    [|assumption|reflexivity].
  simpl in *. rewrite length_replicate in Lp, Lc. subst ps.
  split_and!; auto.
  - unfold ring_shape. auto.
  - intros j p Hp. pose proof (lookup_lt_Some _ _ _ Hp) as Hj.
    destruct (At j p ltac:(lia) Hp) as [A1 A2].
    rewrite length_replicate in A1, A2.
    split; [apply A1 | apply A2]; lia.
Qed.

End Construction.

(** ** Arithmetic of one particle *)

Section ParticleArithmetic.

Variable cfg : Config.

Lemma clampRadius_lower x : innerRadius cfg <= clampRadius cfg x.
Proof. unfold clampRadius. apply Rmax_l. Qed.

Lemma clampRadius_band x :
  innerRadius cfg <= outerRadius cfg ->
  innerRadius cfg <= clampRadius cfg x <= outerRadius cfg.
Proof.
  intros H. split; [apply clampRadius_lower|].
  unfold clampRadius. apply Rmax_lub; [assumption | apply Rmin_l].
Qed.

Lemma clampRadius_below x :
  innerRadius cfg <= outerRadius cfg -> x <= innerRadius cfg ->
  clampRadius cfg x = innerRadius cfg.
Proof.
  intros H Hx. unfold clampRadius.
  rewrite Rmin_right by lra. apply Rmax_left. assumption.
Qed.

Lemma clampRadius_above x :
  innerRadius cfg <= outerRadius cfg -> outerRadius cfg <= x ->
  clampRadius cfg x = outerRadius cfg.
Proof.
  intros H Hx. unfold clampRadius.
  rewrite Rmin_left by lra. apply Rmax_right. assumption.
Qed.

Lemma clampRadius_inside x :
  innerRadius cfg <= x <= outerRadius cfg -> clampRadius cfg x = x.
Proof.
  intros H. unfold clampRadius.
  rewrite Rmin_right by lra. apply Rmax_right. lra.
Qed.

(** An empty or inverted band collapses onto [innerRadius]. *)
Lemma clampRadius_collapsed x :
  outerRadius cfg <= innerRadius cfg -> clampRadius cfg x = innerRadius cfg.
Proof.
  intros H. unfold clampRadius. apply Rmax_left.
  pose proof (Rmin_l (outerRadius cfg) x). lra.
Qed.

Lemma newParticle_radius normal u :
  radius (newParticle cfg normal u) = clampRadius cfg normal.
Proof. reflexivity. Qed.

Lemma newParticle_speed normal u :
  speed (newParticle cfg normal u)
  = speedConstant cfg / radius (newParticle cfg normal u).
Proof. reflexivity. Qed.

Lemma sampled_radius p :
  sampled cfg p ->
  exists u1 u2, 0 < u1 < 1 /\ 0 < u2 < 1
    /\ radius p = clampRadius cfg
                    (boxMullerRadius (innerRadius cfg) (outerRadius cfg) u1 u2).
Proof. intros (u1 & u2 & u & H1 & H2 & _ & ->). eauto. Qed.

Lemma sampled_speed p :
  sampled cfg p -> speed p = speedConstant cfg / radius p.
Proof. intros (u1 & u2 & u & _ & _ & _ & ->). reflexivity. Qed.

Lemma sampled_lower p : sampled cfg p -> innerRadius cfg <= radius p.
Proof.
  intros (u1 & u2 & u & _ & _ & _ & ->). apply clampRadius_lower.
Qed.

Lemma sampled_band p :
  innerRadius cfg <= outerRadius cfg -> sampled cfg p ->
  innerRadius cfg <= radius p <= outerRadius cfg.
Proof.
  intros H (u1 & u2 & u & _ & _ & _ & ->). by apply clampRadius_band.
Qed.

Lemma sampled_angle p : sampled cfg p -> 0 <= angle p < 2 * PI.
Proof.
  intros (u1 & u2 & u & _ & _ & Hu & ->). simpl.
  pose proof PI_RGT_0. split; nra.
Qed.

End ParticleArithmetic.

(** Division by a positive radius reverses the order. *)
Lemma div_antitone (c x y : R) : 0 < c -> 0 < x -> x <= y -> c / y <= c / x.
Proof.
  intros Hc Hx Hxy. unfold Rdiv.
  apply Rmult_le_compat_l; [lra|]. apply Rinv_le_contravar; assumption.
Qed.

Lemma div_strictly_antitone (c x y : R) : 0 < c -> 0 < x -> x < y -> c / y < c / x.
Proof.
  intros Hc Hx Hxy. unfold Rdiv.
  apply Rmult_lt_compat_l; [lra|]. apply Rinv_lt_contravar; [nra | assumption].
Qed.

Lemma div_positive (c x : R) : 0 < c -> 0 < x -> 0 < c / x.
Proof. intros Hc Hx. apply Rdiv_lt_0_compat; assumption. Qed.

(** The constants the two variants of the script hard-code are valid
    inputs: a positive count, a band with [0 < innerRadius < outerRadius]
    and a positive speed constant. *)
Lemma variants_valid (c1 c2 c3 : Color.t) :
  ((0 < particleCount (variant1 c1 c2 c3))%Z
   /\ valid_band (variant1 c1 c2 c3)
   /\ 0 < speedConstant (variant1 c1 c2 c3))
  /\ ((0 < particleCount (variant2 c1 c2 c3))%Z
      /\ valid_band (variant2 c1 c2 c3)
      /\ 0 < speedConstant (variant2 c1 c2 c3)).
Proof. unfold valid_band; simpl. split_and!; solve [lia | lra]. Qed.

(** ** Draws that land on the two ends of the band *)

Section EndsOfTheBand.

Lemma exp_neg_unit x : x < 0 -> 0 < exp x < 1.
Proof.
  intros Hx. split; [apply exp_pos|].
  rewrite <- exp_0. by apply exp_increasing.
Qed.

Lemma sqrt_16 : sqrt 16 = 4.
Proof. replace 16 with (4 * 4) by lra. apply sqrt_square. lra. Qed.

Lemma sqrt_64 : sqrt 64 = 8.
Proof. replace 64 with (8 * 8) by lra. apply sqrt_square. lra. Qed.

(** [z = -4]: four standard deviations under the mean. *)
Lemma boxMullerRadius_low inner outer :
  boxMullerRadius inner outer (exp (-8)) (1 / 2) = (3 * inner - outer) / 2.
Proof.
  unfold boxMullerRadius. rewrite ln_exp.
  replace (-2 * -8) with 16 by lra. rewrite sqrt_16.
  replace (2 * PI * (1 / 2)) with PI by lra. rewrite cos_PI. lra.
Qed.

(** [z = 4]: four standard deviations over the mean. *)
Lemma boxMullerRadius_high inner outer :
  boxMullerRadius inner outer (exp (-32)) (1 / 6) = (3 * outer - inner) / 2.
Proof.
  unfold boxMullerRadius. rewrite ln_exp.
  replace (-2 * -32) with 64 by lra. rewrite sqrt_64.
  replace (2 * PI * (1 / 6)) with (PI / 3) by lra. rewrite cos_PI3. lra.
Qed.

End EndsOfTheBand.

(** ** Running the construction on a given tape *)

Section Runs.

Variable cfg : Config.

Lemma randomNonZero_hit u tape :
  u <> 0 -> randomNonZero (u :: tape) = inr (u, tape).
Proof. intros H. simpl. destruct (Req_dec_T u 0); [contradiction | reflexivity]. Qed.

Lemma randomNonZero_skip tape : randomNonZero (0 :: tape) = randomNonZero tape.
Proof. simpl. destruct (Req_dec_T 0 0); [reflexivity | contradiction]. Qed.

Lemma constructStep_draws i st u1 u2 u tape :
  u1 <> 0 -> u2 <> 0 ->
  constructStep cfg i st (u1 :: u2 :: u :: tape)
  = inr (storeParticle cfg i
           (newParticle cfg
              (boxMullerRadius (innerRadius cfg) (outerRadius cfg) u1 u2) u)
           st,
         tape).
Proof.
  intros H1 H2. unfold constructStep, getNormalRandom, bind, ret.
  rewrite (randomNonZero_hit u1) by assumption.
  rewrite (randomNonZero_hit u2) by assumption.
  reflexivity.
Qed.

Lemma constructLoop_prefix k : forall i st tape st' rest,
  constructLoop cfg k i st tape = inr (st', rest) ->
  exists ps, particlesData st' = particlesData st ++ ps.
Proof.
  induction k as [|k IH]; intros i st tape st' rest H; simpl in H.
  - inversion H; subst. exists []. by rewrite app_nil_r.
  - unfold bind in H.
    destruct (constructStep cfg i st tape) as [e|[st1 t1]] eqn:Hs; [discriminate|].
    apply constructStep_inv in Hs as (? & ? & ? & ? & ? & _ & _ & _ & _ & _ & ->).
    apply IH in H as (ps & ->). unfold storeParticle; simpl.
    rewrite <- app_assoc. eauto.
Qed.

Lemma nonzeros_replicate_half m : nonzeros (replicate m (1 / 2)) = m.
Proof.
  induction m as [|m IH]; simpl; [reflexivity|].
  destruct (Req_dec_T (1 / 2) 0); [lra | by rewrite IH].
Qed.

Lemma unit_tape_replicate_half m : unit_tape (replicate m (1 / 2)).
Proof. apply Forall_replicate. lra. Qed.

(** The first particle of a run is made from the first three draws when
    the first two are not zero. *)
Lemma particleRingInit_first u1 u2 u tape :
  (0 < particleCount cfg)%Z -> u1 <> 0 -> u2 <> 0 ->
  (3 * (Z.to_nat (particleCount cfg) - 1) <= nonzeros tape)%nat ->
  exists st rest,
    particleRingInit cfg (u1 :: u2 :: u :: tape) = inr (st, rest)
    /\ particlesData st !! 0%nat
       = Some (newParticle cfg
                 (boxMullerRadius (innerRadius cfg) (outerRadius cfg) u1 u2) u).
Proof.
  intros Hn H1 H2 Ht.
  rewrite particleRingInit_unfold by lia.
  destruct (Z.to_nat (particleCount cfg)) as [|k] eqn:Ek; [lia|].
  simpl constructLoop. unfold bind.
  rewrite constructStep_draws by assumption.
  match goal with |- context [constructLoop cfg k 1 ?s tape] =>
    destruct (constructLoop_total cfg k 1%nat s tape) as (st & rest & Hrun); [lia|]
  end.
  exists st, rest. split; [assumption|].
  apply constructLoop_prefix in Hrun as (ps & ->). reflexivity.
Qed.

End Runs.

(** ** The per-frame update *)

Section Animate.

Lemma animateStep_inv i st data :
  particlesData st !! i = Some data ->
  animateStep i st
  = inr (mkRing
           (<[i := advance data]> (particlesData st))
           (<[(i * 3 + 1)%nat := sin (angle (advance data)) * radius data]>
              (<[(i * 3)%nat := cos (angle (advance data)) * radius data]>
                 (positions st)))
           (colors st) (signals st)).
Proof. intros H. unfold animateStep. rewrite H. reflexivity. Qed.

(** [k] iterations from index [i], on a state with a particle at every
    index they visit. *)
Lemma animateLoop_inv k : forall i st,
  (i + k <= length (particlesData st))%nat ->
  exists st',
    animateLoop k i st = inr st'
    /\ length (particlesData st') = length (particlesData st)
    /\ length (positions st') = length (positions st)
    /\ colors st' = colors st
    /\ signals st' = signals st
    /\ (forall j, particlesData st' !! j
                  = if decide (i <= j < i + k)%nat
                    then advance <$> particlesData st !! j
                    else particlesData st !! j)
    /\ (forall j p, (i <= j < i + k)%nat -> particlesData st !! j = Some p ->
          (j * 3 + 1 < length (positions st))%nat ->
          positions st' !! (j * 3)%nat = Some (cos (angle (advance p)) * radius p)
          /\ positions st' !! (j * 3 + 1)%nat
             = Some (sin (angle (advance p)) * radius p))
    /\ (forall idx,
          (forall j, (i <= j < i + k)%nat ->
                     idx <> (j * 3)%nat /\ idx <> (j * 3 + 1)%nat) ->
          positions st' !! idx = positions st !! idx).
Proof.
  induction k as [|k IH]; intros i st Hlen.
  - exists st. simpl. split_and!; auto.
    + intros j. case_decide; [lia | reflexivity].
    + intros j p Hj. lia.
  - destruct (lookup_lt_is_Some_2 (particlesData st) i ltac:(lia)) as [data Hdata].
    simpl. rewrite (animateStep_inv _ _ _ Hdata).
    set (st1 := mkRing _ _ _ _).
    destruct (IH (S i) st1) as (st' & Hrun & Lpd & Lpos & Hc & Hs & Hpd & Hxy & Hrest).
    { subst st1; simpl. rewrite length_insert. lia. }
    subst st1; simpl in *. rewrite !length_insert in *.
    exists st'. split_and!; auto.
    + intros j. rewrite Hpd.
      destruct (decide (j = i)) as [->|Hne].
      * rewrite decide_False by lia. rewrite decide_True by lia.
        rewrite list_lookup_insert_eq by lia. by rewrite Hdata.
      * rewrite list_lookup_insert_ne by lia.
        repeat case_decide; solve [reflexivity | lia].
    + intros j p Hj Hp Hjlen.
      destruct (decide (j = i)) as [->|Hne].
      * assert (p = data) as -> by congruence.
        rewrite !Hrest by (intros j' Hj'; lia).
        split; insert_lookup; reflexivity.
      * apply Hxy; [lia | | lia].
        by rewrite list_lookup_insert_ne by lia.
    + intros idx Hidx.
      rewrite Hrest by (intros j' Hj'; apply Hidx; lia).
      destruct (Hidx i ltac:(lia)) as [N0 N1].
      insert_lookup. reflexivity.
Qed.

Variable cfg : Config.

(** One frame on a state of the shape construction establishes. *)
Lemma animate_inv st :
  ring_shape cfg st ->
  exists st',
    animate cfg st = inr st'
    /\ ring_shape cfg st'
    /\ particlesData st' = advance <$> particlesData st
    /\ colors st' = colors st
    /\ signals st'
       = signals st ++ [RequestAnimationFrame; PositionNeedsUpdate; RenderScene]
    /\ (forall j p, particlesData st !! j = Some p ->
          positions st' !! (j * 3)%nat = Some (cos (angle p + speed p) * radius p)
          /\ positions st' !! (j * 3 + 1)%nat
             = Some (sin (angle p + speed p) * radius p))
    /\ (forall j, positions st' !! (j * 3 + 2)%nat = positions st !! (j * 3 + 2)%nat).
Proof.
  intros (Lpd & Lpos & Lcol). unfold animate.
  destruct (animateLoop_inv (Z.to_nat (particleCount cfg)) 0
              (signal RequestAnimationFrame st))
    as (st' & -> & Lpd' & Lpos' & Hc & Hs & Hpd & Hxy & Hrest).
  { simpl. lia. }
  simpl in *. eexists. split; [reflexivity|]. simpl.
  split_and!.
  - unfold ring_shape; simpl. split_and!; congruence.
  - apply list_eq. intros j. rewrite Hpd, list_lookup_fmap.
    case_decide; [reflexivity|].
    rewrite (lookup_ge_None_2 (particlesData st) j) by lia. reflexivity.
  - assumption.
  - rewrite Hs, <- !app_assoc. reflexivity.
  - intros j p Hp. pose proof (lookup_lt_Some _ _ _ Hp) as Hj.
    apply (Hxy j p); [lia | assumption | lia].
  - intros j. apply Hrest. intros j' _. lia.
Qed.

Lemma advanceBy_S n p : advanceBy n (advance p) = advanceBy (S n) p.
Proof.
  unfold advanceBy, advance; simpl radius; simpl angle; simpl speed.
  f_equal. rewrite S_INR. lra.
Qed.

Lemma advanceBy_0 p : advanceBy 0 p = p.
Proof.
  destruct p as [r a s]. unfold advanceBy; simpl. f_equal. lra.
Qed.

(** [n] frames on a state of the shape construction establishes. *)
Lemma ticks_inv n : forall st,
  ring_shape cfg st ->
  exists st',
    ticks cfg n st = inr st'
    /\ ring_shape cfg st'
    /\ particlesData st' = advanceBy n <$> particlesData st
    /\ colors st' = colors st
    /\ (forall j, positions st' !! (j * 3 + 2)%nat = positions st !! (j * 3 + 2)%nat).
Proof.
  induction n as [|n IH]; intros st Hshape.
  - exists st. simpl. split_and!; auto.
    apply list_eq. intros j. rewrite list_lookup_fmap.
    destruct (particlesData st !! j); simpl; [by rewrite advanceBy_0 | reflexivity].
  - destruct (animate_inv st Hshape) as (st1 & Hrun & Hshape1 & Hpd & Hc & _ & _ & Hz).
    destruct (IH st1 Hshape1) as (st' & Hrun' & Hshape' & Hpd' & Hc' & Hz').
    exists st'. simpl. rewrite Hrun. split_and!; auto.
    + rewrite Hpd', Hpd, <- list_fmap_compose.
      apply list_fmap_ext. intros _ p _. apply advanceBy_S.
    + congruence.
    + intros j. by rewrite Hz', Hz.
Qed.

End Animate.

(** ** The worked run, evaluated *)

Section WorkedRun.

Lemma exampleTape_unit : unit_tape exampleTape.
Proof.
  pose proof (exp_neg_unit (-8)). pose proof (exp_neg_unit (-32)).
  unfold exampleTape. repeat (apply Forall_cons; split; [lra|]). constructor.
Qed.

Lemma constructStep_skip cfg i st tape :
  constructStep cfg i st (0 :: tape) = constructStep cfg i st tape.
Proof.
  unfold constructStep, getNormalRandom, bind. by rewrite randomNonZero_skip.
Qed.

Lemma example_run : particleRingInit exampleConfig exampleTape = inr (exampleRing, []).
Proof.
  pose proof (exp_pos (-8)). pose proof (exp_pos (-32)).
  rewrite particleRingInit_unfold by (simpl; lia).
  change (Z.to_nat (particleCount exampleConfig)) with 2%nat.
  unfold exampleTape. simpl constructLoop. unfold bind.
  rewrite constructStep_skip, constructStep_draws by lra.
  rewrite constructStep_draws by lra.
  reflexivity.
Qed.

Lemma example_shape : ring_shape exampleConfig exampleRing.
Proof. unfold ring_shape. split_and!; reflexivity. Qed.

Lemma point_run :
  particleRingInit pointConfig [1 / 2; 1 / 2; 0]
  = inr (storeParticle pointConfig 0
           (newParticle pointConfig (boxMullerRadius 0 0 (1 / 2) (1 / 2)) 0)
           (mkRing [] (replicate 3 0) (replicate 3 0) []),
         []).
Proof.
  rewrite particleRingInit_unfold by (simpl; lia).
  change (Z.to_nat (particleCount pointConfig)) with 1%nat.
  simpl constructLoop. unfold bind.
  rewrite constructStep_draws by lra. reflexivity.
Qed.

End WorkedRun.

(** * The claims *)

(** C2.  For [particleCount > 0] and [0 < innerRadius < outerRadius]: on
    every tape that keeps the contract of [Math.random], the construction
    returns a ring as soon as the tape holds three non-zero draws per
    particle; every ring it returns holds exactly [particleCount]
    particles, each with a radius in the closed band that is the clamp of
    its normal draw (one draw per particle, nothing is drawn again); and
    both ends of the band are reached by some run. *)
Theorem sampler_count_and_band (cfg : Config) :
  (0 < particleCount cfg)%Z ->
  valid_band cfg ->
  (forall tape, unit_tape tape ->
     ((3 * Z.to_nat (particleCount cfg) <= nonzeros tape)%nat ->
        exists st rest, particleRingInit cfg tape = inr (st, rest))
     /\ (forall st rest, particleRingInit cfg tape = inr (st, rest) ->
           Z.of_nat (length (particlesData st)) = particleCount cfg
           /\ Forall (fun p =>
                        innerRadius cfg <= radius p <= outerRadius cfg
                        /\ exists u1 u2,
                             0 < u1 < 1 /\ 0 < u2 < 1
                             /\ radius p
                                = clampRadius cfg
                                    (boxMullerRadius (innerRadius cfg)
                                       (outerRadius cfg) u1 u2))
                     (particlesData st)))
  /\ (exists tape st rest p,
        unit_tape tape /\ particleRingInit cfg tape = inr (st, rest)
        /\ p ∈ particlesData st /\ radius p = innerRadius cfg)
  /\ (exists tape st rest p,
        unit_tape tape /\ particleRingInit cfg tape = inr (st, rest)
        /\ p ∈ particlesData st /\ radius p = outerRadius cfg).
Proof.
  intros Hn [Hin Hband].
  assert (Hle : innerRadius cfg <= outerRadius cfg) by lra.
  split_and!.
  - intros tape Hu. split.
    + intros Ht. apply particleRingInit_total; [lia | assumption].
    + intros st rest Hrun.
      destruct (particleRingInit_inv cfg tape st rest Hu Hrun)
        as (_ & (Lpd & _ & _) & Hs & _ & _).
      split; [lia|].
      eapply Forall_impl; [exact Hs|]. intros p Hp. split.
      * by apply sampled_band.
      * by apply sampled_radius.
  - set (fill := replicate (3 * (Z.to_nat (particleCount cfg) - 1)) (1 / 2)).
    pose proof (exp_neg_unit (-8) ltac:(lra)) as He.
    destruct (particleRingInit_first cfg (exp (-8)) (1 / 2) 0 fill)
      as (st & rest & Hrun & H0); [lia | lra | lra | |].
    { subst fill. rewrite nonzeros_replicate_half. lia. }
    eexists _, st, rest, _. split_and!; [| exact Hrun | | ].
    + repeat (apply Forall_cons; split; [lra|]). apply unit_tape_replicate_half.
    + eapply list_elem_of_lookup_2. exact H0.
    + rewrite newParticle_radius, boxMullerRadius_low.
      apply clampRadius_below; lra.
  - set (fill := replicate (3 * (Z.to_nat (particleCount cfg) - 1)) (1 / 2)).
    pose proof (exp_neg_unit (-32) ltac:(lra)) as He.
    destruct (particleRingInit_first cfg (exp (-32)) (1 / 6) 0 fill)
      as (st & rest & Hrun & H0); [lia | lra | lra | |].
    { subst fill. rewrite nonzeros_replicate_half. lia. }
    eexists _, st, rest, _. split_and!; [| exact Hrun | | ].
    + repeat (apply Forall_cons; split; [lra|]). apply unit_tape_replicate_half.
    + eapply list_elem_of_lookup_2. exact H0.
    + rewrite newParticle_radius, boxMullerRadius_high.
      apply clampRadius_above; lra.
Qed.

Lemma sampler_count_and_band_witness :
  Z.of_nat (length (particlesData exampleRing)) = 2%Z
  /\ Forall (fun p => 3 <= radius p <= 5) (particlesData exampleRing).
Proof.
  assert (Hn : (0 < particleCount exampleConfig)%Z) by (simpl; lia).
  assert (Hb : valid_band exampleConfig) by (unfold valid_band; simpl; lra).
  destruct (sampler_count_and_band exampleConfig Hn Hb) as (Hall & _ & _).
  destruct (Hall exampleTape exampleTape_unit) as (_ & Hrun).
  destruct (Hrun exampleRing [] example_run) as (Hlen & Hband).
  split; [exact Hlen|].
  eapply Forall_impl; [exact Hband|]. intros p [Hp _]. exact Hp.
Defined.

(** C3.  In a ring built from valid constants, every particle has
    [speed = speedConstant / radius] and a positive speed, and among the
    particles a larger radius means a strictly smaller speed (and a radius
    at least as large a speed at most as large): speed is a strictly
    decreasing function of radius, and all speeds have the same sign. *)
Theorem sampler_speed (cfg : Config) (tape : list R) (st : Ring) (rest : list R) :
  valid_band cfg ->
  0 < speedConstant cfg ->
  unit_tape tape ->
  particleRingInit cfg tape = inr (st, rest) ->
  Forall (fun p => speed p = speedConstant cfg / radius p /\ 0 < speed p)
         (particlesData st)
  /\ forall p q, p ∈ particlesData st -> q ∈ particlesData st ->
       (radius p < radius q -> speed q < speed p)
       /\ (radius p <= radius q -> speed q <= speed p).
Proof.
  intros [Hin Hband] Hc Hu Hrun.
  destruct (particleRingInit_inv cfg tape st rest Hu Hrun) as (_ & _ & Hs & _ & _).
  rewrite Forall_forall in Hs.
  assert (Hpos : forall p, p ∈ particlesData st -> 0 < radius p).
  { intros p Hp. pose proof (sampled_lower cfg p (Hs p Hp)). lra. }
  split.
  - apply Forall_forall. intros p Hp.
    rewrite (sampled_speed cfg p (Hs p Hp)).
    split; [reflexivity|]. apply div_positive; auto.
  - intros p q Hp Hq.
    rewrite (sampled_speed cfg p (Hs p Hp)), (sampled_speed cfg q (Hs q Hq)).
    split; intros Hpq.
    + apply div_strictly_antitone; auto.
    + apply div_antitone; auto.
Qed.

Lemma sampler_speed_witness :
  Forall (fun p => speed p = 0.4 / radius p /\ 0 < speed p)
         (particlesData exampleRing).
Proof.
  apply (sampler_speed exampleConfig exampleTape exampleRing []).
  - unfold valid_band; simpl; lra.
  - simpl; lra.
  - exact exampleTape_unit.
  - exact example_run.
Defined.

(** C10.  In a ring built from valid constants every speed lies between
    [speedConstant / outerRadius] and [speedConstant / innerRadius], so a
    frame turns no particle by more than [speedConstant / innerRadius]. *)
Theorem sampler_speed_bounds (cfg : Config) (tape : list R) (st : Ring) (rest : list R) :
  valid_band cfg ->
  0 < speedConstant cfg ->
  unit_tape tape ->
  particleRingInit cfg tape = inr (st, rest) ->
  Forall (fun p =>
            speedConstant cfg / outerRadius cfg <= speed p
                                                <= speedConstant cfg / innerRadius cfg
            /\ angle (advance p) - angle p <= speedConstant cfg / innerRadius cfg)
         (particlesData st).
Proof.
  intros [Hin Hband] Hc Hu Hrun.
  destruct (particleRingInit_inv cfg tape st rest Hu Hrun) as (_ & _ & Hs & _ & _).
  eapply Forall_impl; [exact Hs|]. intros p Hp.
  destruct (sampled_band cfg p ltac:(lra) Hp) as [Hlo Hhi].
  rewrite (sampled_speed cfg p Hp).
  assert (Hup : speedConstant cfg / radius p <= speedConstant cfg / innerRadius cfg)
    by (apply div_antitone; lra).
  split_and!.
  - apply div_antitone; lra.
  - exact Hup.
  - simpl. rewrite (sampled_speed cfg p Hp). lra.
Qed.

Lemma sampler_speed_bounds_witness :
  Forall (fun p => 0.4 / 5 <= speed p <= 0.4 / 3
                   /\ angle (advance p) - angle p <= 0.4 / 3)
         (particlesData exampleRing).
Proof.
  apply (sampler_speed_bounds exampleConfig exampleTape exampleRing []).
  - unfold valid_band; simpl; lra.
  - simpl; lra.
  - exact exampleTape_unit.
  - exact example_run.
Defined.

(** C6.  On a tape that keeps the contract of [Math.random],
    [getNormalRandom(meanRadius, stdDevRadius)] returns as soon as two
    non-zero draws are left, and what it returns is the Box-Muller value
    of the specification: it throws away zeros until it has [u1], then
    zeros until it has [u2], both strictly between 0 and 1 (so the
    logarithm and the square root are taken inside their domains), and
    returns [sqrt(-2 ln u1) cos(2 pi u2)] scaled by
    [(outerRadius - innerRadius) / 4] and shifted by
    [(innerRadius + outerRadius) / 2]. *)
Theorem getNormalRandom_box_muller (cfg : Config) (tape : list R) :
  unit_tape tape ->
  ((2 <= nonzeros tape)%nat ->
     exists x rest,
       getNormalRandom (meanRadius cfg) (stdDevRadius cfg) tape = inr (x, rest))
  /\ (forall x rest,
        getNormalRandom (meanRadius cfg) (stdDevRadius cfg) tape = inr (x, rest) ->
        exists zs1 u1 zs2 u2,
          tape = zs1 ++ u1 :: zs2 ++ u2 :: rest
          /\ Forall (fun z => z = 0) zs1 /\ Forall (fun z => z = 0) zs2
          /\ 0 < u1 < 1 /\ 0 < u2 < 1
          /\ 0 < -2 * ln u1
          /\ x = boxMullerRadius (innerRadius cfg) (outerRadius cfg) u1 u2).
Proof.
  intros Hu. split.
  - intros Ht.
    destruct (getNormalRandom_total (meanRadius cfg) (stdDevRadius cfg) tape Ht)
      as (x & rest & Hrun & _).
    eauto.
  - intros x rest Hrun.
    apply getNormalRandom_inv in Hrun
      as (zs1 & u1 & zs2 & u2 & -> & Hz1 & Hz2 & Hu1 & Hu2 & ->).
    apply unit_tape_app in Hu as [_ Hu].
    apply unit_tape_cons in Hu as [B1 Hu].
    apply unit_tape_app in Hu as [_ Hu].
    apply unit_tape_cons in Hu as [B2 _].
    assert (0 < u1 < 1) as B1' by lra.
    exists zs1, u1, zs2, u2. split_and!; auto; try lra.
    pose proof (ln_increasing u1 1 ltac:(lra) ltac:(lra)) as Hln.
    rewrite ln_1 in Hln. lra.
Qed.

Lemma getNormalRandom_box_muller_witness :
  exists x rest,
    getNormalRandom (meanRadius exampleConfig) (stdDevRadius exampleConfig)
      exampleTape = inr (x, rest).
Proof.
  apply (getNormalRandom_box_muller exampleConfig exampleTape exampleTape_unit).
  pose proof (exp_pos (-8)). pose proof (exp_pos (-32)).
  unfold exampleTape; simpl.
  repeat match goal with |- context [Req_dec_T ?a ?b] => destruct (Req_dec_T a b) end;
    solve [lia | lra].
Defined.

(** The colour the loop body leaves in [tempColor] is the two-stop
    gradient of the specification at the normalised radius. *)
Lemma tempColor_gradient (cfg : Config) (x : R) :
  tempColor cfg x
  = gradient (color1 cfg) (color2 cfg) (color3 cfg)
      ((x - innerRadius cfg) / (outerRadius cfg - innerRadius cfg)).
Proof.
  unfold tempColor, gradient, normalizedRadius.
  destruct (Rlt_dec _ 0.5); unfold lerpColors; f_equal; lra.
Qed.

Lemma lerpColors_0 (c1 c2 : Color.t) : lerpColors c1 c2 0 = c1.
Proof. destruct c1, c2. unfold lerpColors; simpl. f_equal; lra. Qed.

Lemma lerpColors_1 (c1 c2 : Color.t) : lerpColors c1 c2 1 = c2.
Proof. destruct c1, c2. unfold lerpColors; simpl. f_equal; lra. Qed.

Lemma normalizedRadius_inner (cfg : Config) :
  normalizedRadius cfg (innerRadius cfg) = 0.
Proof. unfold normalizedRadius. unfold Rdiv. rewrite Rminus_diag. lra. Qed.

Lemma normalizedRadius_outer (cfg : Config) :
  innerRadius cfg < outerRadius cfg -> normalizedRadius cfg (outerRadius cfg) = 1.
Proof. intros H. unfold normalizedRadius. field. lra. Qed.

(** C7.  In a ring built from a valid band, the three colour slots of
    particle [j] hold the r, g and b channels of the two-stop gradient at
    [t = (radius - innerRadius) / (outerRadius - innerRadius)]: the blend
    of the inner and the middle colour at [2t] when [t < 0.5], of the
    middle and the outer colour at [2(t - 0.5)] otherwise. *)
Theorem color_buffer_gradient
    (cfg : Config) (tape : list R) (st : Ring) (rest : list R) (j : nat) (p : Particle) :
  valid_band cfg ->
  unit_tape tape ->
  particleRingInit cfg tape = inr (st, rest) ->
  particlesData st !! j = Some p ->
  let t := (radius p - innerRadius cfg) / (outerRadius cfg - innerRadius cfg) in
  let c := if Rlt_dec t 0.5
           then lerpColors (color1 cfg) (color2 cfg) (2 * t)
           else lerpColors (color2 cfg) (color3 cfg) (2 * (t - 0.5)) in
  colors st !! (3 * j)%nat = Some (Color.r c)
  /\ colors st !! (3 * j + 1)%nat = Some (Color.g c)
  /\ colors st !! (3 * j + 2)%nat = Some (Color.b c).
Proof.
  intros _ Hu Hrun Hp t c.
  destruct (particleRingInit_inv cfg tape st rest Hu Hrun) as (_ & _ & _ & _ & Hat).
  destruct (Hat j p Hp) as (_ & C0 & C1 & C2).
  rewrite tempColor_gradient in C0, C1, C2.
  replace (3 * j)%nat with (j * 3)%nat by lia.
  auto.
Qed.

Lemma color_buffer_gradient_witness :
  let p := newParticle exampleConfig (boxMullerRadius 3 5 (exp (-32)) (1 / 6)) (1 / 2) in
  let t := (radius p - 3) / (5 - 3) in
  colors exampleRing !! 3%nat
  = Some (Color.r (if Rlt_dec t 0.5
                   then lerpColors white yellow (2 * t)
                   else lerpColors yellow orange (2 * (t - 0.5)))).
Proof.
  intros p t.
  assert (Hb : valid_band exampleConfig) by (unfold valid_band; simpl; lra).
  destruct (color_buffer_gradient exampleConfig exampleTape exampleRing [] 1 p
              Hb exampleTape_unit example_run eq_refl) as (H & _ & _).
  exact H.
Defined.

(** C8.  With a valid band, [radius = innerRadius] gives [t = 0], the
    first branch and exactly the inner colour; [radius = outerRadius]
    gives [t = 1], the second branch with blend parameter 1 and exactly
    the outer colour; and these are the colours the buffer of a built ring
    holds for such particles. *)
Theorem boundary_colors
    (cfg : Config) (tape : list R) (st : Ring) (rest : list R) (j : nat) (p : Particle) :
  valid_band cfg ->
  unit_tape tape ->
  particleRingInit cfg tape = inr (st, rest) ->
  particlesData st !! j = Some p ->
  (normalizedRadius cfg (innerRadius cfg) = 0
   /\ tempColor cfg (innerRadius cfg) = lerpColors (color1 cfg) (color2 cfg) 0
   /\ tempColor cfg (innerRadius cfg) = color1 cfg)
  /\ (normalizedRadius cfg (outerRadius cfg) = 1
      /\ tempColor cfg (outerRadius cfg) = lerpColors (color2 cfg) (color3 cfg) 1
      /\ tempColor cfg (outerRadius cfg) = color3 cfg)
  /\ (radius p = innerRadius cfg ->
        colors st !! (3 * j)%nat = Some (Color.r (color1 cfg))
        /\ colors st !! (3 * j + 1)%nat = Some (Color.g (color1 cfg))
        /\ colors st !! (3 * j + 2)%nat = Some (Color.b (color1 cfg)))
  /\ (radius p = outerRadius cfg ->
        colors st !! (3 * j)%nat = Some (Color.r (color3 cfg))
        /\ colors st !! (3 * j + 1)%nat = Some (Color.g (color3 cfg))
        /\ colors st !! (3 * j + 2)%nat = Some (Color.b (color3 cfg))).
Proof.
  intros [Hin Hband] Hu Hrun Hp.
  assert (Einner : tempColor cfg (innerRadius cfg) = lerpColors (color1 cfg) (color2 cfg) 0).
  { unfold tempColor. rewrite normalizedRadius_inner.
    destruct (Rlt_dec 0 0.5); [|lra]. f_equal. lra. }
  assert (Eouter : tempColor cfg (outerRadius cfg) = lerpColors (color2 cfg) (color3 cfg) 1).
  { unfold tempColor. rewrite normalizedRadius_outer by assumption.
    destruct (Rlt_dec 1 0.5); [lra|]. f_equal. lra. }
  destruct (particleRingInit_inv cfg tape st rest Hu Hrun) as (_ & _ & _ & _ & Hat).
  destruct (Hat j p Hp) as (_ & C0 & C1 & C2).
  replace (3 * j)%nat with (j * 3)%nat by lia.
  split_and!.
  - apply normalizedRadius_inner.
  - exact Einner.
  - by rewrite Einner, lerpColors_0.
  - by apply normalizedRadius_outer.
  - exact Eouter.
  - by rewrite Eouter, lerpColors_1.
  - intros E. rewrite E, Einner, lerpColors_0 in C0, C1, C2. auto.
  - intros E. rewrite E, Eouter, lerpColors_1 in C0, C1, C2. auto.
Qed.

Lemma boundary_colors_witness :
  colors exampleRing !! 0%nat = Some 1
  /\ colors exampleRing !! 5%nat = Some 0.
Proof.
  pose proof (boundary_colors exampleConfig exampleTape exampleRing [] 0
                (newParticle exampleConfig (boxMullerRadius 3 5 (exp (-8)) (1 / 2)) 0))
    as H0.
  pose proof (boundary_colors exampleConfig exampleTape exampleRing [] 1
                (newParticle exampleConfig (boxMullerRadius 3 5 (exp (-32)) (1 / 6)) (1 / 2)))
    as H1.
  assert (Hb : valid_band exampleConfig) by (unfold valid_band; simpl; lra).
  destruct (H0 Hb exampleTape_unit example_run eq_refl) as (_ & _ & Hin & _).
  destruct (H1 Hb exampleTape_unit example_run eq_refl) as (_ & _ & _ & Hout).
  split.
  - apply Hin. rewrite newParticle_radius, boxMullerRadius_low.
    apply clampRadius_below; simpl; lra.
  - apply Hout. rewrite newParticle_radius, boxMullerRadius_high.
    apply clampRadius_above; simpl; lra.
Defined.

(** C1, as stated, fails: a band that is the single point 0 is accepted
    without any error and its particle carries the radius 0 into
    [speedConstant / radius]; a particle count of 0 is accepted as well and
    yields an empty ring. *)
Lemma degenerate_inputs_accepted :
  (innerRadius pointConfig >= outerRadius pointConfig
   /\ exists st p,
        particleRingInit pointConfig [1 / 2; 1 / 2; 0] = inr (st, [])
        /\ particlesData st = [p]
        /\ radius p = 0
        /\ speed p = speedConstant pointConfig / radius p)
  /\ ((particleCount emptyConfig <= 0)%Z
      /\ particleRingInit emptyConfig [] = inr (mkRing [] [] [] [], [])).
Proof.
  split; split.
  - simpl. lra.
  - eexists _, _. split; [exact point_run|]. split; [reflexivity|]. split.
    + rewrite newParticle_radius. apply clampRadius_collapsed. simpl. lra.
    + reflexivity.
  - simpl. lia.
  - reflexivity.
Qed.

(** C1, amended.  The construction checks nothing itself.  A negative
    [particleCount] stops the script with the [RangeError] of the first
    buffer allocation; [particleCount = 0] is accepted and yields an empty
    ring; the radii are never looked at: for every [innerRadius] and
    [outerRadius] the construction returns a ring once the tape holds
    three non-zero draws per particle, and it never stops for another
    reason than a negative count or the end of the tape.  Every radius it
    produces is at least [innerRadius], and is [innerRadius] when
    [innerRadius >= outerRadius]; so the divisor of
    [speedConstant / radius] is non-zero whenever [innerRadius > 0]. *)
Theorem construction_checks_nothing (cfg : Config) (tape : list R) :
  ((particleCount cfg < 0)%Z -> particleRingInit cfg tape = inl RangeError)
  /\ ((particleCount cfg = 0)%Z ->
        particleRingInit cfg tape = inr (mkRing [] [] [] [], tape))
  /\ ((0 <= particleCount cfg)%Z ->
      (3 * Z.to_nat (particleCount cfg) <= nonzeros tape)%nat ->
      exists st rest, particleRingInit cfg tape = inr (st, rest))
  /\ (forall e, particleRingInit cfg tape = inl e ->
        (e = RangeError /\ (particleCount cfg < 0)%Z)
        \/ (e = OutOfTape /\ (0 <= particleCount cfg)%Z))
  /\ (forall st rest,
        unit_tape tape -> particleRingInit cfg tape = inr (st, rest) ->
        Forall (fun p =>
                  innerRadius cfg <= radius p
                  /\ (innerRadius cfg >= outerRadius cfg -> radius p = innerRadius cfg)
                  /\ (0 < innerRadius cfg -> radius p <> 0))
               (particlesData st)).
Proof.
  split_and!.
  - apply particleRingInit_negative.
  - intros H0. unfold particleRingInit. rewrite H0. reflexivity.
  - apply particleRingInit_total.
  - intros e He.
    destruct (Z.lt_ge_cases (particleCount cfg) 0) as [Hneg|Hpos].
    + left. rewrite particleRingInit_negative in He by assumption.
      split; [congruence | assumption].
    + right. rewrite particleRingInit_unfold in He by assumption.
      apply constructLoop_exn in He. auto.
  - intros st rest Hu Hrun.
    destruct (particleRingInit_inv cfg tape st rest Hu Hrun) as (_ & _ & Hs & _ & _).
    eapply Forall_impl; [exact Hs|]. intros p Hp.
    pose proof (sampled_lower cfg p Hp) as Hlo.
    split_and!; [assumption | | lra].
    intros Hdeg. destruct Hp as (u1 & u2 & u & _ & _ & _ & ->).
    rewrite newParticle_radius. apply clampRadius_collapsed. lra.
Qed.

(** The states the script can be in when a frame starts: a built ring
    after some number of frames.  They have the shape [animate] relies on
    and a position buffer whose z slots are all 0. *)
Lemma ticks_from_init (cfg : Config) (tape : list R) (st0 : Ring) (rest : list R)
    (k : nat) (st : Ring) :
  unit_tape tape ->
  particleRingInit cfg tape = inr (st0, rest) ->
  ticks cfg k st0 = inr st ->
  ring_shape cfg st
  /\ forall i, (i < Z.to_nat (particleCount cfg))%nat ->
               positions st !! (i * 3 + 2)%nat = Some 0.
Proof.
  intros Hu Hrun Hk.
  destruct (particleRingInit_inv cfg tape st0 rest Hu Hrun)
    as (_ & Hshape & _ & _ & Hat).
  destruct (ticks_inv cfg k st0 Hshape) as (st' & Hk' & Hshape' & _ & _ & Hz).
  assert (st' = st) as -> by congruence.
  split; [assumption|].
  intros i Hi. rewrite Hz.
  destruct Hshape as (Lpd & _ & _).
  destruct (lookup_lt_is_Some_2 (particlesData st0) i ltac:(lia)) as [p Hp].
  destruct (Hat i p Hp) as ((_ & _ & Z0) & _). exact Z0.
Qed.

(** C4.  From a built ring, [n] frames succeed and leave particle [i] with
    the angle [initialAngle + n * speed] and with the radius it had. *)
Theorem ticks_angle
    (cfg : Config) (tape : list R) (st0 : Ring) (rest : list R) (n i : nat) (p : Particle) :
  unit_tape tape ->
  particleRingInit cfg tape = inr (st0, rest) ->
  particlesData st0 !! i = Some p ->
  exists st p',
    ticks cfg n st0 = inr st
    /\ particlesData st !! i = Some p'
    /\ angle p' = angle p + INR n * speed p
    /\ radius p' = radius p.
Proof.
  intros Hu Hrun Hp.
  destruct (particleRingInit_inv cfg tape st0 rest Hu Hrun) as (_ & Hshape & _).
  destruct (ticks_inv cfg n st0 Hshape) as (st & Hn & _ & Hpd & _).
  exists st, (advanceBy n p). split_and!; [assumption | | reflexivity | reflexivity].
  rewrite Hpd, list_lookup_fmap, Hp. reflexivity.
Qed.

Lemma ticks_angle_witness :
  exists st p',
    ticks exampleConfig 3 exampleRing = inr st
    /\ particlesData st !! 1%nat = Some p'
    /\ angle p' = 1 / 2 * PI * 2 + INR 3 * (0.4 / clampRadius exampleConfig
                                                    (boxMullerRadius 3 5 (exp (-32)) (1 / 6)))
    /\ radius p' = clampRadius exampleConfig (boxMullerRadius 3 5 (exp (-32)) (1 / 6)).
Proof.
  apply (ticks_angle exampleConfig exampleTape exampleRing [] 3 1
           (newParticle exampleConfig (boxMullerRadius 3 5 (exp (-32)) (1 / 6)) (1 / 2))).
  - exact exampleTape_unit.
  - exact example_run.
  - reflexivity.
Defined.

(** C5.  A frame started in any state the script can be in succeeds; for
    every particle [i] it first adds the speed to the angle and then
    stores [cos(angle) * radius] in slot [3i] and [sin(angle) * radius] in
    slot [3i+1], both with the new angle; slot [3i+2] keeps its value,
    which is 0; and the frame hands the engine exactly one
    [needsUpdate = true], after the frame request and before the render
    call. *)
Theorem animate_positions
    (cfg : Config) (tape : list R) (st0 : Ring) (rest : list R) (k : nat) (st : Ring) :
  unit_tape tape ->
  particleRingInit cfg tape = inr (st0, rest) ->
  ticks cfg k st0 = inr st ->
  exists st',
    animate cfg st = inr st'
    /\ (forall i, (i < Z.to_nat (particleCount cfg))%nat ->
          exists p p',
            particlesData st !! i = Some p
            /\ particlesData st' !! i = Some p'
            /\ angle p' = angle p + speed p
            /\ radius p' = radius p
            /\ positions st' !! (3 * i)%nat = Some (cos (angle p') * radius p')
            /\ positions st' !! (3 * i + 1)%nat = Some (sin (angle p') * radius p')
            /\ positions st' !! (3 * i + 2)%nat = positions st !! (3 * i + 2)%nat
            /\ positions st' !! (3 * i + 2)%nat = Some 0)
    /\ signals st'
       = signals st ++ [RequestAnimationFrame; PositionNeedsUpdate; RenderScene].
Proof.
  intros Hu Hrun Hk.
  destruct (ticks_from_init cfg tape st0 rest k st Hu Hrun Hk) as (Hshape & Hz0).
  destruct (animate_inv cfg st Hshape) as (st' & Hrun' & _ & Hpd & _ & Hs & Hxy & Hz).
  exists st'. split_and!; [assumption | | assumption].
  intros i Hi. destruct Hshape as (Lpd & _ & _).
  destruct (lookup_lt_is_Some_2 (particlesData st) i ltac:(lia)) as [p Hp].
  destruct (Hxy i p Hp) as (Hx & Hy).
  exists p, (advance p).
  replace (3 * i)%nat with (i * 3)%nat by lia.
  split_and!; auto.
  - rewrite Hpd, list_lookup_fmap, Hp. reflexivity.
  - rewrite Hz. by apply Hz0.
Qed.

Lemma animate_positions_witness :
  exists st',
    animate exampleConfig exampleRing = inr st'
    /\ signals st' = [RequestAnimationFrame; PositionNeedsUpdate; RenderScene].
Proof.
  destruct (animate_positions exampleConfig exampleTape exampleRing [] 0 exampleRing
              exampleTape_unit example_run eq_refl) as (st' & Hrun & _ & Hs).
  exists st'. split; [exact Hrun | exact Hs].
Defined.

(** C9.  From a built ring, any number of frames leaves every entry of the
    colour buffer, the speed of every particle and every z slot of the
    position buffer as construction left them. *)
Theorem ticks_frame
    (cfg : Config) (tape : list R) (st0 : Ring) (rest : list R) (n : nat) :
  unit_tape tape ->
  particleRingInit cfg tape = inr (st0, rest) ->
  exists st,
    ticks cfg n st0 = inr st
    /\ colors st = colors st0
    /\ (forall i p, particlesData st0 !! i = Some p ->
          exists p', particlesData st !! i = Some p' /\ speed p' = speed p)
    /\ (forall i, positions st !! (3 * i + 2)%nat = positions st0 !! (3 * i + 2)%nat).
Proof.
  intros Hu Hrun.
  destruct (particleRingInit_inv cfg tape st0 rest Hu Hrun) as (_ & Hshape & _).
  destruct (ticks_inv cfg n st0 Hshape) as (st & Hn & _ & Hpd & Hc & Hz).
  exists st. split_and!; auto.
  - intros i p Hp. exists (advanceBy n p). split; [|reflexivity].
    rewrite Hpd, list_lookup_fmap, Hp. reflexivity.
  - intros i. replace (3 * i)%nat with (i * 3)%nat by lia. apply Hz.
Qed.

Lemma ticks_frame_witness :
  exists st,
    ticks exampleConfig 5 exampleRing = inr st
    /\ colors st = colors exampleRing.
Proof.
  destruct (ticks_frame exampleConfig exampleTape exampleRing [] 5
              exampleTape_unit example_run) as (st & Hrun & Hc & _).
  exists st. split; [exact Hrun | exact Hc].
Defined.


(** * Further properties of the script *)

(** ** How much of the random source construction uses *)

Lemma nonzeros_app (t1 t2 : list R) :
  nonzeros (t1 ++ t2) = (nonzeros t1 + nonzeros t2)%nat.
Proof.
  induction t1 as [|u t1 IH]; simpl; [reflexivity|].
  destruct (Req_dec_T u 0); lia.
Qed.

Lemma nonzeros_zeros (zs : list R) : Forall (fun z => z = 0) zs -> nonzeros zs = 0%nat.
Proof.
  induction 1 as [|z zs Hz _ IH]; simpl; [reflexivity|].
  destruct (Req_dec_T z 0); [assumption | contradiction].
Qed.

Lemma zeros_of_nonzero_tape (zs tape : list R) :
  Forall (fun z => z = 0) zs -> Forall (fun u => u <> 0) (zs ++ tape) -> zs = [].
Proof.
  intros Hz Hnz. destruct zs as [|z zs]; [reflexivity|].
  inversion Hz; subst. inversion Hnz; subst. contradiction.
Qed.

(** One iteration uses a prefix of the tape: the zeros it rejects, the two
    draws of the normal variate and the draw of the angle. *)
Lemma constructStep_draw_count (cfg : Config) i st tape st' rest :
  constructStep cfg i st tape = inr (st', rest) ->
  exists used,
    tape = used ++ rest
    /\ (3 <= length used)%nat
    /\ (2 <= nonzeros used <= 3)%nat
    /\ (Forall (fun u => u <> 0) tape -> length used = 3%nat).
Proof.
  intros H.
  apply constructStep_inv in H
    as (zs1 & u1 & zs2 & u2 & u & -> & Hz1 & Hz2 & Hu1 & Hu2 & _).
  exists (zs1 ++ u1 :: zs2 ++ [u2; u]). split_and!.
  - rewrite <- !app_assoc. simpl. rewrite <- !app_assoc. reflexivity.
  - rewrite length_app; simpl. rewrite length_app; simpl. lia.
  - rewrite nonzeros_app; simpl. rewrite nonzeros_app; simpl.
    rewrite !nonzeros_zeros by assumption.
    destruct (Req_dec_T u1 0); [contradiction|].
    destruct (Req_dec_T u2 0); [contradiction|].
    destruct (Req_dec_T u 0); lia.
  - rewrite nonzeros_app; simpl. rewrite nonzeros_app; simpl.
    rewrite !nonzeros_zeros by assumption.
    destruct (Req_dec_T u1 0); [contradiction|].
    destruct (Req_dec_T u2 0); [contradiction|].
    destruct (Req_dec_T u 0); lia.
  - intros Hnz.
    pose proof (zeros_of_nonzero_tape _ _ Hz1 Hnz) as ->. simpl in Hnz.
    inversion Hnz as [|? ? _ Hnz']; subst.
    pose proof (zeros_of_nonzero_tape _ _ Hz2 Hnz') as ->. reflexivity.
Qed.

Lemma constructLoop_draw_count (cfg : Config) k : forall i st tape st' rest,
  constructLoop cfg k i st tape = inr (st', rest) ->
  exists used,
    tape = used ++ rest
    /\ (3 * k <= length used)%nat
    /\ (2 * k <= nonzeros used <= 3 * k)%nat
    /\ (Forall (fun u => u <> 0) tape -> length used = (3 * k)%nat).
Proof.
  induction k as [|k IH]; intros i st tape st' rest H; simpl in H.
  - inversion H; subst. exists []. simpl. split_and!; auto; lia.
  - unfold bind in H.
    destruct (constructStep cfg i st tape) as [e|[st1 t1]] eqn:Hs; [discriminate|].
    apply constructStep_draw_count in Hs as (used1 & -> & L1 & N1 & E1).
    assert (Hsuffix : forall t, Forall (fun u : R => u <> 0) (used1 ++ t) ->
                                Forall (fun u : R => u <> 0) t).
    { intros t Ht. by apply Forall_app in Ht as [_ Ht]. }
    apply IH in H as (used2 & -> & L2 & N2 & E2).
    exists (used1 ++ used2). split_and!.
    + by rewrite <- app_assoc.
    + rewrite length_app. lia.
    + rewrite nonzeros_app. lia.
    + rewrite nonzeros_app. lia.
    + intros Hnz. rewrite length_app, (E1 Hnz), (E2 (Hsuffix _ Hnz)). lia.
Qed.

(** X1.  A construction that returns has used a prefix of the random
    source with at least three draws per particle, between two and three
    of them non-zero per particle; on a source that never yields 0 it uses
    exactly three draws per particle. *)
Theorem construction_draw_count
    (cfg : Config) (tape : list R) (st : Ring) (rest : list R) :
  particleRingInit cfg tape = inr (st, rest) ->
  exists used,
    tape = used ++ rest
    /\ (3 * Z.to_nat (particleCount cfg) <= length used)%nat
    /\ (2 * Z.to_nat (particleCount cfg) <= nonzeros used
        <= 3 * Z.to_nat (particleCount cfg))%nat
    /\ (Forall (fun u => u <> 0) tape ->
        length used = (3 * Z.to_nat (particleCount cfg))%nat).
Proof.
  intros H.
  destruct (Z.lt_ge_cases (particleCount cfg) 0) as [Hneg|Hpos].
  { rewrite particleRingInit_negative in H by assumption. discriminate. }
  rewrite particleRingInit_unfold in H by assumption.
  by apply constructLoop_draw_count in H.
Qed.

Lemma construction_draw_count_witness :
  exists used,
    exampleTape = used ++ []
    /\ (3 * 2 <= length used)%nat
    /\ (2 * 2 <= nonzeros used <= 3 * 2)%nat.
Proof.
  destruct (construction_draw_count exampleConfig exampleTape exampleRing []
              example_run) as (used & E & L & N & _).
  exists used. split_and!; [exact E | exact L | apply N | apply N].
Defined.

(** ** The buffers follow the particles *)

Lemma particleRingInit_synced (cfg : Config) tape st rest :
  unit_tape tape -> particleRingInit cfg tape = inr (st, rest) -> synced cfg st.
Proof.
  intros Hu Hrun.
  destruct (particleRingInit_inv cfg tape st rest Hu Hrun) as (_ & Hshape & _ & _ & Hat).
  split; assumption.
Qed.

(** A frame keeps both buffers in step with the particle array. *)
Lemma animate_synced (cfg : Config) st :
  synced cfg st -> exists st', animate cfg st = inr st' /\ synced cfg st'.
Proof.
  intros (Hshape & Hat).
  destruct (animate_inv cfg st Hshape) as (st' & Hrun & Hshape' & Hpd & Hc & _ & Hxy & Hz).
  exists st'. split; [assumption|]. split; [assumption|].
  intros j p' Hp'. rewrite Hpd, list_lookup_fmap in Hp'.
  destruct (particlesData st !! j) as [p|] eqn:Hp; [|discriminate].
  simpl in Hp'. inversion Hp'; subst p'; clear Hp'.
  destruct (Hat j p Hp) as ((_ & _ & Z0) & C).
  destruct (Hxy j p Hp) as (Hx & Hy).
  split.
  - unfold position_of. simpl. rewrite Hz. auto.
  - unfold color_of in *. simpl. rewrite Hc. exact C.
Qed.

Lemma ticks_synced (cfg : Config) n : forall st,
  synced cfg st -> exists st', ticks cfg n st = inr st' /\ synced cfg st'.
Proof.
  induction n as [|n IH]; intros st Hs; simpl.
  - eauto.
  - destruct (animate_synced cfg st Hs) as (st1 & -> & Hs1). by apply IH.
Qed.

(** X2.  At every frame boundary (after construction and after any number
    of frames) both buffers have three slots per particle and slot group
    [i] belongs to particle [i] as it is now: the position slots hold
    [cos(angle) * radius], [sin(angle) * radius] and 0 for its current
    angle, the colour slots the gradient colour of its radius. *)
Theorem buffers_follow_particles
    (cfg : Config) (tape : list R) (st0 : Ring) (rest : list R) (k : nat) (st : Ring) :
  unit_tape tape ->
  particleRingInit cfg tape = inr (st0, rest) ->
  ticks cfg k st0 = inr st ->
  length (positions st) = (3 * Z.to_nat (particleCount cfg))%nat
  /\ length (colors st) = (3 * Z.to_nat (particleCount cfg))%nat
  /\ forall i, (i < Z.to_nat (particleCount cfg))%nat ->
       exists p,
         particlesData st !! i = Some p
         /\ positions st !! (3 * i)%nat = Some (cos (angle p) * radius p)
         /\ positions st !! (3 * i + 1)%nat = Some (sin (angle p) * radius p)
         /\ positions st !! (3 * i + 2)%nat = Some 0
         /\ colors st !! (3 * i)%nat = Some (Color.r (tempColor cfg (radius p)))
         /\ colors st !! (3 * i + 1)%nat = Some (Color.g (tempColor cfg (radius p)))
         /\ colors st !! (3 * i + 2)%nat = Some (Color.b (tempColor cfg (radius p))).
Proof.
  intros Hu Hrun Hk.
  pose proof (particleRingInit_synced cfg tape st0 rest Hu Hrun) as Hs0.
  destruct (ticks_synced cfg k st0 Hs0) as (st' & Hk' & (Lpd & Lpos & Lcol) & Hat).
  assert (st' = st) as -> by congruence.
  split_and!; [lia | lia |].
  intros i Hi.
  destruct (lookup_lt_is_Some_2 (particlesData st) i ltac:(lia)) as [p Hp].
  destruct (Hat i p Hp) as ((P0 & P1 & P2) & (C0 & C1 & C2)).
  exists p. replace (3 * i)%nat with (i * 3)%nat by lia.
  split_and!; assumption.
Qed.

Lemma buffers_follow_particles_witness :
  length (positions exampleRing) = 6%nat /\ length (colors exampleRing) = 6%nat.
Proof.
  destruct (buffers_follow_particles exampleConfig exampleTape exampleRing [] 0
              exampleRing exampleTape_unit example_run eq_refl) as (Lp & Lc & _).
  split; [exact Lp | exact Lc].
Defined.

(** The radii of a ring do not change with the frames, so they stay in the
    band construction put them in. *)
Lemma ticks_radius_band (cfg : Config) tape st0 rest k st i p :
  innerRadius cfg <= outerRadius cfg ->
  unit_tape tape ->
  particleRingInit cfg tape = inr (st0, rest) ->
  ticks cfg k st0 = inr st ->
  particlesData st !! i = Some p ->
  innerRadius cfg <= radius p <= outerRadius cfg.
Proof.
  intros Hle Hu Hrun Hk Hp.
  destruct (particleRingInit_inv cfg tape st0 rest Hu Hrun) as (_ & Hshape & Hs & _).
  destruct (ticks_inv cfg k st0 Hshape) as (st' & Hk' & _ & Hpd & _).
  assert (st' = st) as -> by congruence.
  rewrite Hpd, list_lookup_fmap in Hp.
  destruct (particlesData st0 !! i) as [p0|] eqn:Hp0; [|discriminate].
  simpl in Hp. inversion Hp; subst p; simpl.
  rewrite Forall_lookup in Hs. apply sampled_band; eauto.
Qed.

Lemma on_circle (a r : R) :
  (cos a * r) * (cos a * r) + (sin a * r) * (sin a * r) = r * r.
Proof.
  pose proof (sin2_cos2 a) as H. unfold Rsqr in H. nra.
Qed.

(** X3.  At every frame boundary every particle lies in the plane z = 0 on
    the circle of its own radius, hence inside the closed annulus between
    [innerRadius] and [outerRadius]: the squared distance of the stored
    point from the axis is between the squares of the two radii. *)
Theorem particles_stay_in_annulus
    (cfg : Config) (tape : list R) (st0 : Ring) (rest : list R) (k : nat) (st : Ring)
    (i : nat) :
  valid_band cfg ->
  unit_tape tape ->
  particleRingInit cfg tape = inr (st0, rest) ->
  ticks cfg k st0 = inr st ->
  (i < Z.to_nat (particleCount cfg))%nat ->
  exists p x y,
    particlesData st !! i = Some p
    /\ positions st !! (3 * i)%nat = Some x
    /\ positions st !! (3 * i + 1)%nat = Some y
    /\ positions st !! (3 * i + 2)%nat = Some 0
    /\ x * x + y * y = radius p * radius p
    /\ innerRadius cfg * innerRadius cfg <= x * x + y * y
       <= outerRadius cfg * outerRadius cfg.
Proof.
  intros [Hin Hband] Hu Hrun Hk Hi.
  pose proof (particleRingInit_synced cfg tape st0 rest Hu Hrun) as Hs0.
  destruct (ticks_synced cfg k st0 Hs0) as (st' & Hk' & (Lpd & _ & _) & Hat).
  assert (st' = st) as -> by congruence.
  destruct (lookup_lt_is_Some_2 (particlesData st) i ltac:(lia)) as [p Hp].
  destruct (Hat i p Hp) as ((P0 & P1 & P2) & _).
  destruct (ticks_radius_band cfg tape st0 rest k st i p ltac:(lra) Hu Hrun Hk Hp)
    as [Hlo Hhi].
  exists p, (cos (angle p) * radius p), (sin (angle p) * radius p).
  replace (3 * i)%nat with (i * 3)%nat by lia.
  rewrite on_circle.
  split_and!; auto; nra.
Qed.

Lemma particles_stay_in_annulus_witness :
  exists p x y,
    particlesData exampleRing !! 1%nat = Some p
    /\ positions exampleRing !! 3%nat = Some x
    /\ positions exampleRing !! 4%nat = Some y
    /\ 3 * 3 <= x * x + y * y <= 5 * 5.
Proof.
  assert (Hb : valid_band exampleConfig) by (unfold valid_band; simpl; lra).
  assert (Hi : (1 < Z.to_nat (particleCount exampleConfig))%nat) by (simpl; lia).
  destruct (particles_stay_in_annulus exampleConfig exampleTape exampleRing [] 0
              exampleRing 1 Hb exampleTape_unit example_run eq_refl Hi)
    as (p & x & y & Hp & Hx & Hy & _ & _ & Hann).
  exists p, x, y. split_and!; [exact Hp | exact Hx | exact Hy | apply Hann | apply Hann].
Defined.

(** ** [animate] on states it was not made for, and frames in sequence *)

Lemma animateStep_length i st st' :
  animateStep i st = inr st' ->
  length (particlesData st') = length (particlesData st).
Proof.
  unfold animateStep. destruct (particlesData st !! i); [|discriminate].
  intros H; inversion H; subst; simpl. apply length_insert.
Qed.

(** The loop throws as soon as its index passes the end of
    [particlesData]. *)
Lemma animateLoop_short k : forall i st,
  (i <= length (particlesData st) < i + k)%nat ->
  animateLoop k i st = inl TypeError.
Proof.
  induction k as [|k IH]; intros i st H; [lia|].
  simpl. destruct (animateStep i st) as [e|st1] eqn:Hs.
  - unfold animateStep in Hs.
    destruct (particlesData st !! i); [discriminate | congruence].
  - pose proof (animateStep_length _ _ _ Hs) as Hlen.
    assert (i < length (particlesData st))%nat.
    { unfold animateStep in Hs.
      destruct (particlesData st !! i) eqn:Hl; [|discriminate].
      by apply lookup_lt_Some in Hl. }
    apply IH. lia.
Qed.

(** X4.  [animate] does not check the length of [particlesData]: on a
    state with fewer particles than [particleCount] the frame throws a
    [TypeError] (the read of [.angle] on [undefined]) and never reaches the
    render call. *)
Theorem animate_missing_particle (cfg : Config) (st : Ring) :
  (length (particlesData st) < Z.to_nat (particleCount cfg))%nat ->
  animate cfg st = inl TypeError.
Proof.
  intros H. unfold animate.
  rewrite animateLoop_short; [reflexivity|]. simpl. lia.
Qed.

Lemma animate_missing_particle_witness :
  animate exampleConfig strippedRing = inl TypeError.
Proof.
  apply animate_missing_particle. simpl. lia.
Defined.

Lemma animateLoop_signals k : forall i st st',
  animateLoop k i st = inr st' -> signals st' = signals st.
Proof.
  induction k as [|k IH]; intros i st st' H; simpl in H.
  - by inversion H.
  - destruct (animateStep i st) as [e|st1] eqn:Hs; [discriminate|].
    rewrite (IH _ _ _ H). unfold animateStep in Hs.
    destruct (particlesData st !! i); [|discriminate].
    by inversion Hs.
Qed.

Lemma animate_signals (cfg : Config) st st' :
  animate cfg st = inr st' -> signals st' = signals st ++ frameSignals.
Proof.
  unfold animate.
  destruct (animateLoop _ 0 (signal RequestAnimationFrame st)) as [e|st1] eqn:Hl;
    [discriminate|].
  intros H; inversion H; subst; simpl.
  rewrite (animateLoop_signals _ _ _ _ Hl). simpl.
  rewrite <- !app_assoc. reflexivity.
Qed.

Lemma ticks_signals (cfg : Config) n : forall st st',
  ticks cfg n st = inr st' ->
  signals st' = signals st ++ concat (replicate n frameSignals).
Proof.
  induction n as [|n IH]; intros st st' H; simpl in H.
  - inversion H; subst. simpl. by rewrite app_nil_r.
  - destruct (animate cfg st) as [e|st1] eqn:Ha; [discriminate|].
    rewrite (IH _ _ H), (animate_signals _ _ _ Ha).
    rewrite <- app_assoc. reflexivity.
Qed.

Lemma count_needsUpdate n :
  length (filter (fun s => s = PositionNeedsUpdate)
            (concat (replicate n frameSignals))) = n.
Proof.
  induction n as [|n IH]; [reflexivity|].
  change (concat (replicate (S n) frameSignals))
    with (RequestAnimationFrame :: PositionNeedsUpdate :: RenderScene
            :: concat (replicate n frameSignals)).
  rewrite filter_cons_False by discriminate.
  rewrite filter_cons_True by reflexivity.
  rewrite filter_cons_False by discriminate.
  simpl. by rewrite IH.
Qed.

(** X5.  Construction sends nothing to the engine, and [n] frames after it
    the engine has received exactly [n] times the sequence frame request,
    [needsUpdate = true], render call, in this order: one buffer upload
    request per rendered frame, always ahead of its render call. *)
Theorem frames_signal_trace
    (cfg : Config) (tape : list R) (st0 : Ring) (rest : list R) (n : nat) :
  unit_tape tape ->
  particleRingInit cfg tape = inr (st0, rest) ->
  signals st0 = []
  /\ exists st,
       ticks cfg n st0 = inr st
       /\ signals st
          = concat (replicate n
                      [RequestAnimationFrame; PositionNeedsUpdate; RenderScene])
       /\ length (filter (fun s => s = PositionNeedsUpdate) (signals st)) = n.
Proof.
  intros Hu Hrun.
  destruct (particleRingInit_inv cfg tape st0 rest Hu Hrun) as (_ & Hshape & _ & Hs0 & _).
  split; [assumption|].
  destruct (ticks_inv cfg n st0 Hshape) as (st & Hn & _).
  exists st. split; [assumption|].
  pose proof (ticks_signals cfg n st0 st Hn) as Hs. rewrite Hs0 in Hs. simpl in Hs.
  split; [exact Hs|]. rewrite Hs. apply count_needsUpdate.
Qed.

Lemma frames_signal_trace_witness :
  exists st,
    ticks exampleConfig 2 exampleRing = inr st
    /\ signals st
       = [RequestAnimationFrame; PositionNeedsUpdate; RenderScene;
          RequestAnimationFrame; PositionNeedsUpdate; RenderScene].
Proof.
  destruct (frames_signal_trace exampleConfig exampleTape exampleRing [] 2
              exampleTape_unit example_run) as (_ & st & Hrun & Hs & _).
  exists st. split; [exact Hrun | exact Hs].
Defined.


(** X7.  All particles turn the same way and the inner ones turn faster:
    in a ring built from valid constants, after [n >= 1] frames every
    particle's angle has grown, and of two particles the one with the
    smaller radius has gained strictly more angle. *)
Theorem inner_particles_turn_further
    (cfg : Config) (tape : list R) (st0 : Ring) (rest : list R) (n i j : nat)
    (p q : Particle) :
  valid_band cfg ->
  0 < speedConstant cfg ->
  unit_tape tape ->
  particleRingInit cfg tape = inr (st0, rest) ->
  (0 < n)%nat ->
  particlesData st0 !! i = Some p ->
  particlesData st0 !! j = Some q ->
  exists st p' q',
    ticks cfg n st0 = inr st
    /\ particlesData st !! i = Some p'
    /\ particlesData st !! j = Some q'
    /\ angle p < angle p'
    /\ angle q < angle q'
    /\ (radius p < radius q -> angle q' - angle q < angle p' - angle p).
Proof.
  intros [Hin Hband] Hc Hu Hrun Hn Hp Hq.
  destruct (particleRingInit_inv cfg tape st0 rest Hu Hrun) as (_ & Hshape & Hs & _).
  rewrite Forall_lookup in Hs.
  pose proof (Hs i p Hp) as Sp. pose proof (Hs j q Hq) as Sq.
  pose proof (sampled_lower cfg p Sp) as Lp.
  pose proof (sampled_lower cfg q Sq) as Lq.
  pose proof (sampled_speed cfg p Sp) as Ep.
  pose proof (sampled_speed cfg q Sq) as Eq.
  assert (0 < speed p) as Pp by (rewrite Ep; apply div_positive; lra).
  assert (0 < speed q) as Pq by (rewrite Eq; apply div_positive; lra).
  assert (0 < INR n) as Hn' by (apply lt_0_INR; lia).
  destruct (ticks_inv cfg n st0 Hshape) as (st & Hrunn & _ & Hpd & _).
  exists st, (advanceBy n p), (advanceBy n q).
  split_and!; auto.
  - rewrite Hpd, list_lookup_fmap, Hp. reflexivity.
  - rewrite Hpd, list_lookup_fmap, Hq. reflexivity.
  - simpl. nra.
  - simpl. nra.
  - intros Hpq. simpl.
    assert (speed q < speed p)
      by (rewrite Ep, Eq; apply div_strictly_antitone; lra).
    nra.
Qed.

Lemma inner_particles_turn_further_witness :
  exists st p' q',
    ticks exampleConfig 4 exampleRing = inr st
    /\ particlesData st !! 0%nat = Some p'
    /\ particlesData st !! 1%nat = Some q'
    /\ 0 * PI * 2 < angle p'.
Proof.
  assert (Hb : valid_band exampleConfig) by (unfold valid_band; simpl; lra).
  assert (Hc : 0 < speedConstant exampleConfig) by (simpl; lra).
  destruct (inner_particles_turn_further exampleConfig exampleTape exampleRing [] 4 0 1
              (newParticle exampleConfig (boxMullerRadius 3 5 (exp (-8)) (1 / 2)) 0)
              (newParticle exampleConfig (boxMullerRadius 3 5 (exp (-32)) (1 / 6)) (1 / 2))
              Hb Hc exampleTape_unit example_run ltac:(lia) eq_refl eq_refl)
    as (st & p' & q' & Hrun & Hp & Hq & Ha & _).
  exists st, p', q'. split_and!; [exact Hrun | exact Hp | exact Hq | exact Ha].
Defined.

(** ** The clamp and the normal draw *)

(** X8.  With [innerRadius <= outerRadius] the clamp of the loop body is a
    monotone projection onto the band: it keeps the order, leaves values
    inside the band alone, and clamping twice is clamping once. *)
Theorem clampRadius_projection (cfg : Config) (x y : R) :
  innerRadius cfg <= outerRadius cfg ->
  (x <= y -> clampRadius cfg x <= clampRadius cfg y)
  /\ (innerRadius cfg <= x <= outerRadius cfg -> clampRadius cfg x = x)
  /\ clampRadius cfg (clampRadius cfg x) = clampRadius cfg x.
Proof.
  intros Hle. split_and!.
  - intros Hxy. unfold clampRadius.
    apply Rle_max_compat_l. apply Rle_min_compat_l. exact Hxy.
  - apply clampRadius_inside.
  - apply clampRadius_inside. by apply clampRadius_band.
Qed.

Lemma clampRadius_projection_witness :
  clampRadius exampleConfig (clampRadius exampleConfig 7) = clampRadius exampleConfig 7.
Proof.
  apply (clampRadius_projection exampleConfig 7 7). simpl. lra.
Defined.

Lemma sqrt_le_2 (x : R) : 0 <= x <= 4 -> 0 <= sqrt x <= 2.
Proof.
  intros [H0 H4]. split; [apply sqrt_pos|].
  replace 2 with (sqrt 4).
  - apply sqrt_le_1; lra.
  - replace 4 with (2 * 2) by lra. apply sqrt_square. lra.
Qed.

(** A first draw of at least [exp(-2)] keeps the variate within two
    standard deviations, which is half the width of the band. *)
Lemma boxMullerRadius_within (inner outer u1 u2 : R) :
  inner <= outer -> exp (-2) <= u1 <= 1 ->
  inner <= boxMullerRadius inner outer u1 u2 <= outer.
Proof.
  intros Hle [Hlo Hhi].
  pose proof (exp_pos (-2)) as He.
  assert (Hln : -2 <= ln u1 <= 0).
  { split.
    - rewrite <- (ln_exp (-2)).
      destruct Hlo as [Hlt|Heq]; [left; apply ln_increasing; lra | right; by rewrite Heq].
    - rewrite <- ln_1.
      destruct Hhi as [Hlt|Heq]; [left; apply ln_increasing; lra | right; by rewrite Heq]. }
  destruct (sqrt_le_2 (-2 * ln u1) ltac:(lra)) as [S0 S2].
  pose proof (COS_bound (2 * PI * u2)) as [C0 C1].
  unfold boxMullerRadius.
  set (s := sqrt (-2 * ln u1)) in *. set (c := cos (2 * PI * u2)) in *.
  assert (-2 <= s * c <= 2) by nra.
  nra.
Qed.

(** X9.  The clamp only ever acts on rare draws: when the first non-zero
    draw [u1] of [getNormalRandom(meanRadius, stdDevRadius)] is at least
    [exp(-2)], the value returned already lies in the band (it is within
    two standard deviations of the mean) and the clamp leaves it as it
    is. *)
Theorem clamp_idle_for_large_u1
    (cfg : Config) (zs : list R) (u1 : R) (tape : list R) (x : R) (rest : list R) :
  innerRadius cfg <= outerRadius cfg ->
  Forall (fun z => z = 0) zs ->
  exp (-2) <= u1 < 1 ->
  getNormalRandom (meanRadius cfg) (stdDevRadius cfg) (zs ++ u1 :: tape) = inr (x, rest) ->
  innerRadius cfg <= x <= outerRadius cfg /\ clampRadius cfg x = x.
Proof.
  intros Hle Hzs [Hlo Hhi] Hrun.
  pose proof (exp_pos (-2)) as He.
  assert (Hx : innerRadius cfg <= x <= outerRadius cfg).
  { unfold getNormalRandom, bind, ret in Hrun.
    assert (Hfirst : randomNonZero (zs ++ u1 :: tape) = inr (u1, tape)).
    { clear Hrun. induction Hzs as [|z zs Hz _ IH]; simpl.
      - destruct (Req_dec_T u1 0); [lra | reflexivity].
      - destruct (Req_dec_T z 0); [exact IH | contradiction]. }
    rewrite Hfirst in Hrun.
    destruct (randomNonZero tape) as [e|[u2 t2]]; [discriminate|].
    inversion Hrun; subst.
    apply (boxMullerRadius_within (innerRadius cfg) (outerRadius cfg) u1 u2); lra. }
  split; [exact Hx | by apply clampRadius_inside].
Qed.

Lemma clamp_idle_for_large_u1_witness :
  exists x,
    getNormalRandom (meanRadius exampleConfig) (stdDevRadius exampleConfig)
      [0; exp (-1); 1 / 4] = inr (x, [])
    /\ clampRadius exampleConfig x = x.
Proof.
  pose proof (exp_pos (-1)) as Hpos.
  pose proof (exp_increasing (-2) (-1) ltac:(lra)) as Hlo.
  pose proof (exp_neg_unit (-1) ltac:(lra)) as [_ Hhi].
  assert (Hrun : getNormalRandom (meanRadius exampleConfig) (stdDevRadius exampleConfig)
                   ([0] ++ exp (-1) :: [1 / 4])
                 = inr (boxMullerRadius 3 5 (exp (-1)) (1 / 4), [])).
  { unfold getNormalRandom, bind, ret. simpl app.
    rewrite randomNonZero_skip, !randomNonZero_hit by lra. reflexivity. }
  exists (boxMullerRadius 3 5 (exp (-1)) (1 / 4)). split; [exact Hrun|].
  apply (clamp_idle_for_large_u1 exampleConfig [0] (exp (-1)) [1 / 4] _ []).
  - simpl. lra.
  - by constructor.
  - lra.
  - exact Hrun.
Defined.

(** ** The colours *)

Lemma normalizedRadius_unit (cfg : Config) (x : R) :
  innerRadius cfg < outerRadius cfg ->
  innerRadius cfg <= x <= outerRadius cfg ->
  0 <= normalizedRadius cfg x <= 1.
Proof.
  intros Hband [Hlo Hhi]. unfold normalizedRadius, Rdiv.
  pose proof (Rinv_0_lt_compat (outerRadius cfg - innerRadius cfg) ltac:(lra)) as Hd.
  pose proof (Rinv_r (outerRadius cfg - innerRadius cfg) ltac:(lra)) as Hone.
  set (d := / (outerRadius cfg - innerRadius cfg)) in *.
  split; nra.
Qed.

Lemma blend_within (lo hi a b alpha : R) :
  lo <= a <= hi -> lo <= b <= hi -> 0 <= alpha <= 1 ->
  lo <= a + (b - a) * alpha <= hi.
Proof. intros Ha Hb Halpha. split; nra. Qed.

Lemma lerpColors_within (lo hi : R) (c1 c2 : Color.t) (alpha : R) :
  channels_within lo hi c1 -> channels_within lo hi c2 -> 0 <= alpha <= 1 ->
  channels_within lo hi (lerpColors c1 c2 alpha).
Proof.
  intros (R1 & G1 & B1) (R2 & G2 & B2) Halpha.
  unfold channels_within, lerpColors; simpl.
  split; [|split]; apply blend_within; assumption.
Qed.

Lemma tempColor_within (cfg : Config) (lo hi x : R) :
  innerRadius cfg < outerRadius cfg ->
  channels_within lo hi (color1 cfg) ->
  channels_within lo hi (color2 cfg) ->
  channels_within lo hi (color3 cfg) ->
  innerRadius cfg <= x <= outerRadius cfg ->
  channels_within lo hi (tempColor cfg x).
Proof.
  intros Hband H1 H2 H3 Hx.
  pose proof (normalizedRadius_unit cfg x Hband Hx) as [T0 T1].
  unfold tempColor. destruct (Rlt_dec _ 0.5) as [Hlt|Hge];
    apply lerpColors_within; auto; lra.
Qed.

(** X10.  The gradient never leaves the range of its three stops: when
    every channel of the three reference colours lies in [lo, hi], so does
    every entry of the colour buffer of a ring built from a valid band, at
    construction and after any number of frames. *)
Theorem color_buffer_within
    (cfg : Config) (lo hi : R) (tape : list R) (st0 : Ring) (rest : list R)
    (k : nat) (st : Ring) (idx : nat) (v : R) :
  valid_band cfg ->
  channels_within lo hi (color1 cfg) ->
  channels_within lo hi (color2 cfg) ->
  channels_within lo hi (color3 cfg) ->
  unit_tape tape ->
  particleRingInit cfg tape = inr (st0, rest) ->
  ticks cfg k st0 = inr st ->
  colors st !! idx = Some v ->
  lo <= v <= hi.
Proof.
  intros [Hin Hband] H1 H2 H3 Hu Hrun Hk Hv.
  destruct (particleRingInit_inv cfg tape st0 rest Hu Hrun)
    as (_ & Hshape & Hs & _ & Hat).
  destruct (ticks_inv cfg k st0 Hshape) as (st' & Hk' & _ & _ & Hc & _).
  assert (st' = st) as -> by congruence.
  rewrite Hc in Hv. destruct Hshape as (Lpd & _ & Lcol).
  pose proof (lookup_lt_Some _ _ _ Hv) as Hidx.
  pose proof (Nat.div_mod_eq idx 3) as Hdm.
  pose proof (Nat.mod_upper_bound idx 3 ltac:(lia)) as Hm.
  set (j := (idx / 3)%nat) in *. set (c := (idx mod 3)%nat) in *.
  destruct (lookup_lt_is_Some_2 (particlesData st0) j ltac:(lia)) as [p Hp].
  destruct (Hat j p Hp) as (_ & C0 & C1 & C2).
  rewrite Forall_lookup in Hs.
  pose proof (sampled_band cfg p ltac:(lra) (Hs j p Hp)) as Hr.
  destruct (tempColor_within cfg lo hi (radius p) Hband H1 H2 H3 Hr) as (Wr & Wg & Wb).
  assert (c = 0 \/ c = 1 \/ c = 2)%nat as [E|[E|E]] by lia.
  - replace idx with (j * 3)%nat in Hv by lia. congruence.
  - replace idx with (j * 3 + 1)%nat in Hv by lia. congruence.
  - replace idx with (j * 3 + 2)%nat in Hv by lia. congruence.
Qed.

Lemma color_buffer_within_witness :
  0 <= Color.g (tempColor exampleConfig
                  (clampRadius exampleConfig (boxMullerRadius 3 5 (exp (-32)) (1 / 6))))
    <= 1.
Proof.
  apply (color_buffer_within exampleConfig 0 1 exampleTape exampleRing [] 0
           exampleRing 4).
  - unfold valid_band; simpl; lra.
  - unfold channels_within; simpl; lra.
  - unfold channels_within; simpl; lra.
  - unfold channels_within; simpl; lra.
  - exact exampleTape_unit.
  - exact example_run.
  - reflexivity.
  - reflexivity.
Defined.

Lemma Rabs_bound (a b : R) : Rabs a <= b -> - b <= a <= b.
Proof. unfold Rabs. destruct (Rcase_abs a); lra. Qed.

Lemma two_stop_lipschitz (a b c M t s : R) :
  Rabs (b - a) <= M -> Rabs (c - b) <= M ->
  Rabs ((if Rlt_dec t 0.5 then a + (b - a) * (t * 2) else b + (c - b) * ((t - 0.5) * 2))
        - (if Rlt_dec s 0.5 then a + (b - a) * (s * 2) else b + (c - b) * ((s - 0.5) * 2)))
  <= 2 * M * Rabs (t - s).
Proof.
  intros Hab Hbc.
  apply Rabs_bound in Hab. apply Rabs_bound in Hbc.
  apply Rabs_le.
  destruct (Rlt_dec t 0.5), (Rlt_dec s 0.5);
    unfold Rabs; destruct (Rcase_abs (t - s)); split; nra.
Qed.

Lemma normalizedRadius_diff (cfg : Config) (x y : R) :
  innerRadius cfg < outerRadius cfg ->
  Rabs (normalizedRadius cfg x - normalizedRadius cfg y)
  = Rabs (x - y) * / (outerRadius cfg - innerRadius cfg).
Proof.
  intros Hband. unfold normalizedRadius.
  replace ((x - innerRadius cfg) / (outerRadius cfg - innerRadius cfg)
           - (y - innerRadius cfg) / (outerRadius cfg - innerRadius cfg))
    with ((x - y) * / (outerRadius cfg - innerRadius cfg)) by (field; lra).
  rewrite Rabs_mult. f_equal. apply Rabs_right.
  left. apply Rinv_0_lt_compat. lra.
Qed.

(** X11.  The colour is a continuous function of the radius, with no jump
    where the two segments of the gradient meet: if neighbouring stops
    differ by at most [M] on every channel, then two radii [x] and [y]
    get colours that differ by at most
    [2 M / (outerRadius - innerRadius) * |x - y|] on every channel. *)
Theorem tempColor_lipschitz (cfg : Config) (M x y : R) :
  innerRadius cfg < outerRadius cfg ->
  channels_apart M (color1 cfg) (color2 cfg) ->
  channels_apart M (color2 cfg) (color3 cfg) ->
  let L := 2 * M / (outerRadius cfg - innerRadius cfg) in
  Rabs (Color.r (tempColor cfg x) - Color.r (tempColor cfg y)) <= L * Rabs (x - y)
  /\ Rabs (Color.g (tempColor cfg x) - Color.g (tempColor cfg y)) <= L * Rabs (x - y)
  /\ Rabs (Color.b (tempColor cfg x) - Color.b (tempColor cfg y)) <= L * Rabs (x - y).
Proof.
  intros Hband (R12 & G12 & B12) (R23 & G23 & B23) L.
  assert (HL : L * Rabs (x - y)
               = 2 * M * Rabs (normalizedRadius cfg x - normalizedRadius cfg y)).
  { rewrite normalizedRadius_diff by assumption. subst L. unfold Rdiv. ring. }
  rewrite HL. unfold tempColor.
  split; [|split].
  - pose proof (two_stop_lipschitz _ _ _ M (normalizedRadius cfg x)
                  (normalizedRadius cfg y) R12 R23) as H.
    destruct (Rlt_dec (normalizedRadius cfg x) 0.5),
             (Rlt_dec (normalizedRadius cfg y) 0.5); exact H.
  - pose proof (two_stop_lipschitz _ _ _ M (normalizedRadius cfg x)
                  (normalizedRadius cfg y) G12 G23) as H.
    destruct (Rlt_dec (normalizedRadius cfg x) 0.5),
             (Rlt_dec (normalizedRadius cfg y) 0.5); exact H.
  - pose proof (two_stop_lipschitz _ _ _ M (normalizedRadius cfg x)
                  (normalizedRadius cfg y) B12 B23) as H.
    destruct (Rlt_dec (normalizedRadius cfg x) 0.5),
             (Rlt_dec (normalizedRadius cfg y) 0.5); exact H.
Qed.

Lemma tempColor_lipschitz_witness :
  Rabs (Color.g (tempColor exampleConfig 3.9) - Color.g (tempColor exampleConfig 4.1))
  <= 2 * 1 / (5 - 3) * Rabs (3.9 - 4.1).
Proof.
  apply (tempColor_lipschitz exampleConfig 1 3.9 4.1).
  - simpl. lra.
  - unfold channels_apart; simpl. split_and!; apply Rabs_le; lra.
  - unfold channels_apart; simpl. split_and!; apply Rabs_le; lra.
Defined.

(** ** The starfield and the order of the draws *)

Lemma starLoop_run k : forall starVertices tape,
  (3 * k <= length tape)%nat ->
  starLoop k starVertices tape
  = inr (starVertices ++ ((fun u => (u - 0.5) * 2000) <$> take (3 * k) tape),
         drop (3 * k) tape).
Proof.
  induction k as [|k IH]; intros vs tape Hlen.
  - simpl. unfold ret. by rewrite app_nil_r.
  - destruct tape as [|u [|v [|w tape]]]; simpl in Hlen; try lia.
    replace (3 * S k)%nat with (S (S (S (3 * k)))) by lia.
    simpl starLoop. unfold bind, starStep, bind, random, ret.
    rewrite IH by lia. rewrite <- app_assoc. reflexivity.
Qed.

Lemma star_coordinate (u : R) : 0 <= u < 1 -> -1000 <= (u - 0.5) * 2000 < 1000.
Proof. intros H. lra. Qed.

(** X12.  The starfield loop draws exactly three numbers per star and
    never rejects one: [starVertices] ends up with 30000 coordinates, the
    images of the first 30000 draws under [u -> (u - 0.5) * 2000] in the
    order drawn, each in [-1000, 1000), and the random source is left at
    its 30001st draw. *)
Theorem starfield_vertices (tape : list R) :
  unit_tape tape ->
  (3 * Z.to_nat 10000 <= length tape)%nat ->
  exists starVertices,
    starfieldInit tape = inr (starVertices, drop (3 * Z.to_nat 10000) tape)
    /\ starVertices = (fun u => (u - 0.5) * 2000) <$> take (3 * Z.to_nat 10000) tape
    /\ length starVertices = (3 * Z.to_nat 10000)%nat
    /\ Forall (fun c => -1000 <= c < 1000) starVertices.
Proof.
  intros Hu Hlen. unfold starfieldInit.
  rewrite starLoop_run by assumption.
  exists ((fun u => (u - 0.5) * 2000) <$> take (3 * Z.to_nat 10000) tape).
  split; [reflexivity|]. split; [reflexivity|]. split.
  - rewrite length_fmap, length_take. lia.
  - apply Forall_fmap. eapply Forall_impl.
    + apply Forall_take. exact Hu.
    + intros u Hu'. simpl. by apply star_coordinate.
Qed.

Lemma starfield_vertices_witness :
  exists starVertices,
    starfieldInit (replicate (3 * Z.to_nat 10000) (1 / 2))
    = inr (starVertices,
           drop (3 * Z.to_nat 10000) (replicate (3 * Z.to_nat 10000) (1 / 2)))
    /\ length starVertices = (3 * Z.to_nat 10000)%nat.
Proof.
  destruct (starfield_vertices (replicate (3 * Z.to_nat 10000) (1 / 2)))
    as (vs & Hrun & _ & Hlen & _).
  - apply unit_tape_replicate_half.
  - rewrite length_replicate. apply Nat.le_refl.
  - exists vs. split; [exact Hrun | exact Hlen].
Defined.



(** ** The whole frame *)

(** X14.  On the whole scene, [n] frames do to the ring exactly what [n]
    ring frames do (throwing when they throw), and they turn the cube by
    [n * 0.005] about x and y and the starfield by [n] times its step
    about y. *)
Theorem sceneTicks_rotation (cfg : Config) (starfieldStep : R) (n : nat) (sc : Scene) :
  (forall e, ticks cfg n (particleRing sc) = inl e ->
             sceneTicks cfg starfieldStep n sc = inl e)
  /\ (forall ring', ticks cfg n (particleRing sc) = inr ring' ->
        exists sc',
          sceneTicks cfg starfieldStep n sc = inr sc'
          /\ particleRing sc' = ring'
          /\ cubeRotationX sc' = cubeRotationX sc + INR n * 0.005
          /\ cubeRotationY sc' = cubeRotationY sc + INR n * 0.005
          /\ starfieldRotationY sc' = starfieldRotationY sc + INR n * starfieldStep).
Proof.
  revert sc. induction n as [|n IH]; intros sc.
  - split; [discriminate|]. intros ring' H. inversion H; subst.
    exists sc. simpl. split_and!; auto; lra.
  - simpl ticks. simpl sceneTicks. unfold animateScene.
    destruct (animate cfg (particleRing sc)) as [e|ring1] eqn:Ha.
    + split; [intros e' H; by inversion H | discriminate].
    + specialize (IH (mkScene (cubeRotationX sc + 0.005) (cubeRotationY sc + 0.005)
                        (starfieldRotationY sc + starfieldStep) ring1)).
      simpl in IH. destruct IH as [IHe IHr]. split; [exact IHe|].
      intros ring' H. destruct (IHr ring' H) as (sc' & Hrun & Hring & Hx & Hy & Hs).
      exists sc'. rewrite S_INR. split_and!; auto; lra.
Qed.

(** ** Two more edges *)

(** X15.  [animate] needs nothing but the particles: on any state that
    holds [particleCount] particles the frame succeeds, advances every
    particle by its speed, and neither resizes the position buffer nor
    touches the colour buffer, whatever the length of the position buffer
    is (a store past its end is dropped, not an error). *)
Theorem animate_never_resizes (cfg : Config) (st : Ring) :
  length (particlesData st) = Z.to_nat (particleCount cfg) ->
  exists st',
    animate cfg st = inr st'
    /\ particlesData st' = advance <$> particlesData st
    /\ length (positions st') = length (positions st)
    /\ colors st' = colors st.
Proof.
  intros Lpd. unfold animate.
  destruct (animateLoop_inv (Z.to_nat (particleCount cfg)) 0
              (signal RequestAnimationFrame st))
    as (st' & -> & Lpd' & Lpos' & Hc & _ & Hpd & _).
  { simpl. lia. }
  simpl in *. eexists. split; [reflexivity|]. simpl. split_and!; auto.
  apply list_eq. intros j. rewrite Hpd, list_lookup_fmap.
  case_decide; [reflexivity|].
  rewrite (lookup_ge_None_2 (particlesData st) j) by lia. reflexivity.
Qed.

Lemma animate_never_resizes_witness :
  exists st',
    animate exampleConfig
      (mkRing (particlesData exampleRing) [7] (colors exampleRing) []) = inr st'
    /\ length (positions st') = 1%nat.
Proof.
  destruct (animate_never_resizes exampleConfig
              (mkRing (particlesData exampleRing) [7] (colors exampleRing) []) eq_refl)
    as (st' & Hrun & _ & Hlen & _).
  exists st'. split; [exact Hrun | exact Hlen].
Defined.



